(** * Crossword placement engine: a shallow embedding of [crossword_game.py]

    The Python program keeps one mutable grid (a list of rows, each a list of
    optional one-character strings) and threads it through the validator
    [can_place], the writer [place_word], the crossing search
    [try_place_word], the orchestrator [generate_crossword] and the numbering
    pass [number_grid].  The grid is modelled as a value and every function
    that receives the grid object is a computation in a small state-and-error
    monad: the state is the grid, the only error is Python's [IndexError],
    and an error leaves the cells written so far in place, as in Python. *)

From Stdlib Require Import ZArith Ascii String List Lia Bool Sorted.
From stdpp Require Import gmap strings list sorting.

Local Open Scope Z_scope.

(** ** Python values *)

(** A cell is [None] or a one-character string. *)
Abbreviation cell := (option ascii).
Abbreviation Grid := (list (list cell)).
(** The characters of a Python [str], in order. *)
Abbreviation word_t := (list ascii).

Inductive result (A : Type) : Type :=
  | Ok (a : A)
  | IndexError.
Arguments Ok {A} a.
Arguments IndexError {A}.

(** Python resolves a list subscript [i] against the length [n]: indices
    [0 <= i < n] are taken as they are, [-n <= i < 0] count from the end, and
    everything else raises [IndexError]. *)
Definition py_index (n : nat) (i : Z) : result nat :=
  if (0 <=? i) && (i <? Z.of_nat n) then Ok (Z.to_nat i)
  else if (- Z.of_nat n <=? i) && (i <? 0) then Ok (Z.to_nat (i + Z.of_nat n))
  else IndexError.

(** [l[i]] *)
Definition getitem {A : Type} (l : list A) (i : Z) : result A :=
  match py_index (length l) i with
  | Ok k => match l !! k with Some x => Ok x | None => IndexError end
  | IndexError => IndexError
  end.

(** [l[i] = x] *)
Definition setitem {A : Type} (l : list A) (i : Z) (x : A) : result (list A) :=
  match py_index (length l) i with
  | Ok k => Ok (<[k := x]> l)
  | IndexError => IndexError
  end.

(** [grid[r][c]] as an expression. *)
Definition read (g : Grid) (r c : Z) : result cell :=
  match getitem g r with
  | Ok line => getitem line c
  | IndexError => IndexError
  end.

(** [grid[r][c] = v]: the row object [grid[r]] is fetched, then updated in
    place.  [initialise_grid] builds every row as a list of its own, so rows
    are not aliased and the update is a replacement of row [r]. *)
Definition write (g : Grid) (r c : Z) (v : cell) : result Grid :=
  match getitem g r with
  | Ok line =>
      match setitem line c v with
      | Ok line' => setitem g r line'
      | IndexError => IndexError
      end
  | IndexError => IndexError
  end.

(** ** The grid monad *)

Definition M (A : Type) : Type := Grid -> result A * Grid.

Definition ret {A : Type} (a : A) : M A := fun g => (Ok a, g).

Definition bind {A B : Type} (m : M A) (k : A -> M B) : M B :=
  fun g =>
    match m g with
    | (Ok a, g') => k a g'
    | (IndexError, g') => (IndexError, g')
    end.

Declare Scope grid_scope.
Delimit Scope grid_scope with grid.
Notation "x <- m ;; k" := (bind m (fun x => k))
  (at level 100, m at next level, right associativity) : grid_scope.
Notation "m ;; k" := (bind m (fun _ => k))
  (at level 100, right associativity) : grid_scope.
Local Open Scope grid_scope.

(** [len(grid)] *)
Definition grid_len : M Z := fun g => (Ok (Z.of_nat (length g)), g).

Definition grid_get (r c : Z) : M cell := fun g => (read g r c, g).

Definition grid_set (r c : Z) (v : cell) : M unit :=
  fun g =>
    match write g r c v with
    | Ok g' => (Ok tt, g')
    | IndexError => (IndexError, g)
    end.

(** Python multiplies an [int] by a [bool]: [True] is 1 and [False] is 0. *)
Definition b2z (b : bool) : Z := if b then 1 else 0.

Definition is_letter (x : cell) : bool :=
  match x with Some _ => true | None => false end.

(** [guard and grid[r][c] is not None]; [and] does not evaluate the
    subscript when the guard is false. *)
Definition guarded_letter (guard : bool) (r c : Z) : M bool :=
  if guard then (x <- grid_get r c ;; ret (is_letter x)) else ret false.

(** ** Data model *)

(** [WordEntry]: [word] is the stored attribute, that is the constructor's
    argument after [upper()]. *)
Record WordEntry : Type := mkWordEntry {
  word : word_t;
  clue : string
}.

(** [PlacedWord]; [direction] is an [int], 0 for horizontal and 1 for
    vertical. *)
Record PlacedWord : Type := mkPlacedWord {
  entry : WordEntry;
  row : Z;
  col : Z;
  direction : Z
}.

(** [initialise_grid(size)]; [range] of a negative number is empty. *)
Definition initialise_grid (size : Z) : Grid :=
  replicate (Z.to_nat size) (replicate (Z.to_nat size) None).

(** Row and column of letter [i] of a word anchored at [(row0, col0)]. *)
Definition cell_row (row0 dir i : Z) : Z := row0 + b2z (dir =? 1) * i.
Definition cell_col (col0 dir i : Z) : Z := col0 + b2z (dir =? 0) * i.

(** ** [can_place] *)

(** The perpendicular-neighbour test made for a target cell that is empty:
    [true] when one of the two [return False] statements is reached. *)
Definition side_blocked (size dir r c : Z) : M bool :=
  if dir =? 0 then
    above <- guarded_letter (r >? 0) (r - 1) c ;;
    if above then ret true
    else guarded_letter (r <? size - 1) (r + 1) c
  else
    left <- guarded_letter (c >? 0) r (c - 1) ;;
    if left then ret true
    else guarded_letter (c <? size - 1) r (c + 1).

(** The [for i, ch in enumerate(word)] loop, from index [i] on the remaining
    letters.  [false] is an early [return False]; [true] means the loop ran
    to its end. *)
Fixpoint can_place_cells (size row0 col0 dir i : Z) (w : word_t) : M bool :=
  match w with
  | [] => ret true
  | ch :: rest =>
      let r := cell_row row0 dir i in
      let c := cell_col col0 dir i in
      if (r <? 0) || (r >=? size) || (c <? 0) || (c >=? size) then ret false
      else
        existing <- grid_get r c ;;
        match existing with
        | Some e =>
            if negb (Ascii.eqb e ch) then ret false
            else can_place_cells size row0 col0 dir (i + 1) rest
        | None =>
            blocked <- side_blocked size dir r c ;;
            if blocked then ret false
            else can_place_cells size row0 col0 dir (i + 1) rest
        end
  end.

(** The checks after the loop, on the cells before the start and after the
    end of the word. *)
Definition ends_blocked (size row0 col0 dir len : Z) : M bool :=
  if dir =? 0 then
    before <- guarded_letter (col0 >? 0) row0 (col0 - 1) ;;
    if before then ret true
    else
      let end_c := col0 + len in
      guarded_letter (end_c <? size) row0 end_c
  else
    before <- guarded_letter (row0 >? 0) (row0 - 1) col0 ;;
    if before then ret true
    else
      let end_r := row0 + len in
      guarded_letter (end_r <? size) end_r col0.

Definition can_place (w : word_t) (row0 col0 dir : Z) : M bool :=
  size <- grid_len ;;
  fits <- can_place_cells size row0 col0 dir 0 w ;;
  if fits then
    blocked <- ends_blocked size row0 col0 dir (Z.of_nat (length w)) ;;
    ret (negb blocked)
  else ret false.

(** ** [place_word] *)

Fixpoint place_word_from (row0 col0 dir i : Z) (w : word_t) : M unit :=
  match w with
  | [] => ret tt
  | ch :: rest =>
      grid_set (cell_row row0 dir i) (cell_col col0 dir i) (Some ch) ;;
      place_word_from row0 col0 dir (i + 1) rest
  end.

Definition place_word (w : word_t) (row0 col0 dir : Z) : M unit :=
  place_word_from row0 col0 dir 0 w.

(** ** [try_place_word] *)

(** Anchor and direction of the candidate when its letter [j] is laid on
    letter [i] of [p]. *)
Definition crossing (p : PlacedWord) (i j : Z) : Z * Z * Z :=
  if direction p =? 0 then (row p - j, col p + i, 1)
  else (row p + i, col p - j, 0).

(** Inner loop [for j, ch in enumerate(word)]; [Some] is the early
    [return PlacedWord(...)]. *)
Fixpoint try_cross_letters (e : WordEntry) (p : PlacedWord) (i : Z)
    (pw_ch : ascii) (j : Z) (w : word_t) : M (option PlacedWord) :=
  match w with
  | [] => ret None
  | ch :: rest =>
      if negb (Ascii.eqb pw_ch ch) then
        try_cross_letters e p i pw_ch (j + 1) rest
      else
        let '(r, c, d) := crossing p i j in
        ok <- can_place (word e) r c d ;;
        if ok then
          place_word (word e) r c d ;;
          ret (Some (mkPlacedWord e r c d))
        else try_cross_letters e p i pw_ch (j + 1) rest
  end.

(** Middle loop [for i, pw_ch in enumerate(pw)]. *)
Fixpoint try_cross_word (e : WordEntry) (p : PlacedWord) (i : Z)
    (pw : word_t) : M (option PlacedWord) :=
  match pw with
  | [] => ret None
  | pw_ch :: rest =>
      found <- try_cross_letters e p i pw_ch 0 (word e) ;;
      match found with
      | Some q => ret (Some q)
      | None => try_cross_word e p (i + 1) rest
      end
  end.

(** Outer loop [for placed_word in placed]. *)
Fixpoint try_place_word (e : WordEntry) (placed : list PlacedWord)
    : M (option PlacedWord) :=
  match placed with
  | [] => ret None
  | p :: rest =>
      found <- try_cross_word e p 0 (word (entry p)) ;;
      match found with
      | Some q => ret (Some q)
      | None => try_place_word e rest
      end
  end.

(** ** [select_words] and the ordering policy *)

(** [l[:k]]: a negative [k] counts from the end. *)
Definition py_prefix {A : Type} (l : list A) (k : Z) : list A :=
  if 0 <=? k then take (Z.to_nat k) l
  else take (Z.to_nat (Z.of_nat (length l) + k)) l.

Section Generation.

(** The permutation produced by [random.shuffle] on this run. *)
Variable shuffle : list WordEntry -> list WordEntry.

Definition select_words (entries : list WordEntry) (max_words : Z)
    : list WordEntry :=
  py_prefix (shuffle entries) max_words.

(** [selected.sort(key=lambda e: len(e.word), reverse=True)]: Python's sort
    is stable, also under [reverse=True], so an entry goes in front of the
    first entry that is not strictly longer. *)
Fixpoint insert_by_length (e : WordEntry) (l : list WordEntry)
    : list WordEntry :=
  match l with
  | [] => [e]
  | x :: rest =>
      if (length (word e) <? length (word x))%nat
      then x :: insert_by_length e rest
      else e :: x :: rest
  end.

Definition sort_by_length (l : list WordEntry) : list WordEntry :=
  foldr insert_by_length [] l.

(** ** [generate_crossword] *)

(** The seeding block executed when [selected] is not empty; its value is
    [placed_words] after the block. *)
Definition place_first (size : Z) (first : WordEntry) : M (list PlacedWord) :=
  let word_len := Z.of_nat (length (word first)) in
  let r := size / 2 in
  let c := Z.max 0 ((size - word_len) / 2) in
  ok <- can_place (word first) r c 0 ;;
  if ok then
    place_word (word first) r c 0 ;;
    ret [mkPlacedWord first r c 0]
  else ret [].

(** [for entry in selected: ...]; a [PlacedWord] object is always truthy. *)
Fixpoint place_remaining (selected : list WordEntry)
    (placed_words : list PlacedWord) : M (list PlacedWord) :=
  match selected with
  | [] => ret placed_words
  | e :: rest =>
      pw <- try_place_word e placed_words ;;
      match pw with
      | Some p => place_remaining rest (placed_words ++ [p])
      | None => place_remaining rest placed_words
      end
  end.

Definition layout (size : Z) (selected : list WordEntry)
    : M (list PlacedWord) :=
  match selected with
  | [] => place_remaining [] []
  | first :: rest =>
      placed_words <- place_first size first ;;
      place_remaining rest placed_words
  end.

Definition generate_crossword (entries : list WordEntry) (size max_words : Z)
    : result (Grid * list PlacedWord) :=
  let selected := sort_by_length (select_words entries max_words) in
  match layout size selected (initialise_grid size) with
  | (Ok placed_words, g) => Ok (g, placed_words)
  | (IndexError, _) => IndexError
  end.

End Generation.

(** ** [number_grid] *)

(** The local variables [num], [numbers], [across] and [down]. *)
Record Numbering : Type := mkNumbering {
  num : Z;
  numbers : gmap Z (Z * Z);
  across : gmap Z string;
  down : gmap Z string
}.

(** [for pw in placed_words: if pw.direction == d and pw.row == r and
    pw.col == c: ... break]: the clue of the first match, if any. *)
Definition anchored (d r c : Z) (pw : PlacedWord) : bool :=
  (direction pw =? d) && (row pw =? r) && (col pw =? c).

Definition first_clue (d r c : Z) (placed_words : list PlacedWord)
    : option string :=
  match List.find (anchored d r c) placed_words with
  | Some pw => Some (clue (entry pw))
  | None => None
  end.

Definition bind_clue (n : Z) (c : option string) (m : gmap Z string)
    : gmap Z string :=
  match c with
  | Some s => <[n := s]> m
  | None => m
  end.

(** [first == 0 or grid[r][c] is None], where [first] is the coordinate
    that is tested against the edge. *)
Definition edge_or_empty (first r c : Z) : M bool :=
  if first =? 0 then ret true
  else (x <- grid_get r c ;; ret (negb (is_letter x))).

(** Body of the inner loop for the cell [(r, c)].  The dictionary
    [placed_lookup] that the function fills beforehand is never read and is
    left out. *)
Definition number_cell (size : Z) (placed_words : list PlacedWord)
    (r c : Z) (st : Numbering) : M Numbering :=
  ch <- grid_get r c ;;
  match ch with
  | None => ret st
  | Some _ =>
      open_left <- edge_or_empty c r (c - 1) ;;
      start_across <-
        (if open_left then guarded_letter (c + 1 <? size) r (c + 1)
         else ret false) ;;
      open_top <- edge_or_empty r (r - 1) c ;;
      start_down <-
        (if open_top then guarded_letter (r + 1 <? size) (r + 1) c
         else ret false) ;;
      if start_across || start_down then
        let n := num st in
        ret {| num := n + 1;
               numbers := <[n := (r, c)]> (numbers st);
               across :=
                 if start_across
                 then bind_clue n (first_clue 0 r c placed_words) (across st)
                 else across st;
               down :=
                 if start_down
                 then bind_clue n (first_clue 1 r c placed_words) (down st)
                 else down st |}
      else ret st
  end.

(** A [for] loop over a list that updates loop-carried variables. *)
Fixpoint for_each {A S : Type} (l : list A) (body : A -> S -> M S) (s : S)
    : M S :=
  match l with
  | [] => ret s
  | x :: rest => s' <- body x s ;; for_each rest body s'
  end.

(** [range(n)] *)
Definition range (n : Z) : list Z := seqZ 0 n.

Definition number_grid (placed_words : list PlacedWord) : M Numbering :=
  size <- grid_len ;;
  for_each (range size)
    (fun r => for_each (range size) (number_cell size placed_words r))
    {| num := 1; numbers := ∅; across := ∅; down := ∅ |}.

(** ** Observations used in the statements *)

Definition valid_direction (d : Z) : Prop := d = 0 \/ d = 1.

(** The grid is [N] rows of [N] cells. *)
Definition square (N : Z) (g : Grid) : Prop :=
  Z.of_nat (length g) = N /\ Forall (fun line => Z.of_nat (length line) = N) g.

Definition on_grid (N r c : Z) : Prop := 0 <= r < N /\ 0 <= c < N.

(** Content of a cell by coordinates, without Python's wrap-around:
    [None] off the grid, [Some None] for an empty cell. *)
Definition lookup_cell (g : Grid) (r c : Z) : option cell :=
  if (0 <=? r) && (0 <=? c)
  then match g !! Z.to_nat r with
       | Some line => line !! Z.to_nat c
       | None => None
       end
  else None.

(** The cell is on the grid and holds a letter. *)
Definition occupied (g : Grid) (r c : Z) : bool :=
  match lookup_cell g r c with
  | Some (Some _) => true
  | _ => false
  end.

(** [grid[r][c]] for the cells of a word of [n] letters from index [i] on,
    in index order. *)
Fixpoint read_cells (g : Grid) (row0 col0 dir i : Z) (n : nat)
    : result (list cell) :=
  match n with
  | O => Ok []
  | S n' =>
      match read g (cell_row row0 dir i) (cell_col col0 dir i) with
      | Ok x =>
          match read_cells g row0 col0 dir (i + 1) n' with
          | Ok xs => Ok (x :: xs)
          | IndexError => IndexError
          end
      | IndexError => IndexError
      end
  end.

Definition read_word (g : Grid) (row0 col0 dir : Z) (n : nat)
    : result (list cell) :=
  read_cells g row0 col0 dir 0 n.

(** A computation that leaves the grid as it found it, whatever it
    returns or raises. *)
Definition readonly {A : Type} (m : M A) : Prop := forall g, snd (m g) = g.

(** The perpendicular neighbours of [(r, c)] hold no letter. *)
Definition sides_clear (g : Grid) (d r c : Z) : Prop :=
  if d =? 0
  then occupied g (r - 1) c = false /\ occupied g (r + 1) c = false
  else occupied g r (c - 1) = false /\ occupied g r (c + 1) = false.

(** What the loop body accepts for the letter [ch] aimed at [(r, c)]. *)
Definition cell_ok (N : Z) (g : Grid) (d r c : Z) (ch : ascii) : Prop :=
  on_grid N r c /\
  (forall x, lookup_cell g r c = Some (Some x) -> x = ch) /\
  (lookup_cell g r c = Some None -> sides_clear g d r c).

Definition cells_ok (N : Z) (g : Grid) (row0 col0 d i : Z) (w : word_t) : Prop :=
  forall (k : nat) (ch : ascii),
    w !! k = Some ch ->
    cell_ok N g d (cell_row row0 d (i + Z.of_nat k)) (cell_col col0 d (i + Z.of_nat k)) ch.

(** The cells before the start and after the end hold no letter. *)
Definition ends_clear (g : Grid) (row0 col0 d len : Z) : Prop :=
  if d =? 0
  then occupied g row0 (col0 - 1) = false /\ occupied g row0 (col0 + len) = false
  else occupied g (row0 - 1) col0 = false /\ occupied g (row0 + len) col0 = false.

(** *** The conditions of a legal placement

    Stated over the index of each letter, for a word [w] anchored at
    [(row0, col0)] in direction [d] on a grid of size [N]. *)

(** (1) Every target cell lies on the grid. *)
Definition targets_on_grid (N : Z) (w : word_t) (row0 col0 d : Z) : Prop :=
  forall i : nat, (i < length w)%nat ->
    on_grid N (cell_row row0 d (Z.of_nat i)) (cell_col col0 d (Z.of_nat i)).

(** (2) No target cell holds a letter other than the one aimed at it. *)
Definition no_conflict (g : Grid) (w : word_t) (row0 col0 d : Z) : Prop :=
  forall (i : nat) (ch x : ascii),
    w !! i = Some ch ->
    lookup_cell g (cell_row row0 d (Z.of_nat i)) (cell_col col0 d (Z.of_nat i))
      = Some (Some x) ->
    x = ch.

(** (3) Next to an empty target cell, across the word's direction, there is
    no letter. *)
Definition empty_targets_isolated (g : Grid) (w : word_t) (row0 col0 d : Z)
    : Prop :=
  forall i : nat, (i < length w)%nat ->
    lookup_cell g (cell_row row0 d (Z.of_nat i)) (cell_col col0 d (Z.of_nat i))
      = Some None ->
    sides_clear g d (cell_row row0 d (Z.of_nat i)) (cell_col col0 d (Z.of_nat i)).

(** (1) to (4) together; (4) is [ends_clear]. *)
Definition legal_placement (N : Z) (g : Grid) (w : word_t) (row0 col0 d : Z)
    : Prop :=
  targets_on_grid N w row0 col0 d /\
  no_conflict g w row0 col0 d /\
  empty_targets_isolated g w row0 col0 d /\
  ends_clear g row0 col0 d (Z.of_nat (length w)).

(** The cell is on the grid, and empty or already holding [ch]. *)
Definition accepts (g : Grid) (r c : Z) (ch : ascii) : Prop :=
  lookup_cell g r c = Some None \/ lookup_cell g r c = Some (Some ch).

(** *** The crossing search as a first-fit over an ordered candidate list *)

(** [enumerate(l)], counting from [i]. *)
Fixpoint enumerate_from {A : Type} (i : Z) (l : list A) : list (Z * A) :=
  match l with
  | [] => []
  | x :: rest => (i, x) :: enumerate_from (i + 1) rest
  end.

(** Candidate placements of [w] against the letter [pw_ch] at index [i] of
    [p], by ascending index [j] of the equal letters of [w]. *)
Definition crossings_at (w : list (Z * ascii)) (p : PlacedWord) (i : Z)
    (pw_ch : ascii) : list (Z * Z * Z) :=
  flat_map (fun jc => if Ascii.eqb pw_ch (snd jc) then [crossing p i (fst jc)] else []) w.

(** Candidate placements of [w] against the placed word [p], by ascending
    index [i] of the letters of [p]. *)
Definition crossings_with (w : word_t) (p : PlacedWord) : list (Z * Z * Z) :=
  flat_map (fun ia => crossings_at (enumerate_from 0 w) p (fst ia) (snd ia))
    (enumerate_from 0 (word (entry p))).

(** All candidate placements, oldest placed word first. *)
Definition crossings (w : word_t) (placed : list PlacedWord) : list (Z * Z * Z) :=
  flat_map (crossings_with w) placed.

(** The first candidate that [can_place] accepts on the grid [g]; an
    [IndexError] of [can_place] ends the search. *)
Fixpoint first_fit (w : word_t) (cands : list (Z * Z * Z)) (g : Grid)
    : result (option (Z * Z * Z)) :=
  match cands with
  | [] => Ok None
  | (r, c, d) :: rest =>
      match fst (can_place w r c d g) with
      | Ok true => Ok (Some (r, c, d))
      | Ok false => first_fit w rest g
      | IndexError => IndexError
      end
  end.

(** Write the word at the placement found, if any, and return its record. *)
Definition commit (e : WordEntry) (found : result (option (Z * Z * Z)))
    : M (option PlacedWord) :=
  match found with
  | Ok (Some (r, c, d)) =>
      place_word (word e) r c d ;;
      ret (Some (mkPlacedWord e r c d))
  | Ok None => ret None
  | IndexError => fun g => (IndexError, g)
  end.

Definition first_fit_search (e : WordEntry) (cands : list (Z * Z * Z))
    : M (option PlacedWord) :=
  fun g => commit e (first_fit (word e) cands g) g.

(** *** Consistency of the placed words with the grid *)

(** Every letter of [p] is in its cell. *)
Definition covers (g : Grid) (p : PlacedWord) : Prop :=
  forall (k : nat) (ch : ascii),
    word (entry p) !! k = Some ch ->
    lookup_cell g (cell_row (row p) (direction p) (Z.of_nat k))
                  (cell_col (col p) (direction p) (Z.of_nat k)) = Some (Some ch).

(** Reading the grid from the anchor of [p] along its direction gives the
    letters of its word. *)
Definition reads_back (g : Grid) (p : PlacedWord) : Prop :=
  read_word g (row p) (col p) (direction p) (length (word (entry p)))
    = Ok (Some <$> word (entry p)).

(** Two placed words have the same letter wherever they share a cell. *)
Definition agree_on_shared (placed : list PlacedWord) : Prop :=
  forall (p q : PlacedWord) (i j : nat) (a b : ascii),
    In p placed -> In q placed ->
    word (entry p) !! i = Some a ->
    word (entry q) !! j = Some b ->
    cell_row (row p) (direction p) (Z.of_nat i)
      = cell_row (row q) (direction q) (Z.of_nat j) ->
    cell_col (col p) (direction p) (Z.of_nat i)
      = cell_col (col q) (direction q) (Z.of_nat j) ->
    a = b.

(** *** Numbering *)

(** The cells in the order of the scan: rows ascending, columns ascending
    within a row. *)
Definition scan (N : Z) : list (Z * Z) :=
  flat_map (fun r => map (pair r) (range N)) (range N).

(** A letter with no letter on its left and a letter on its right. *)
Definition across_start (g : Grid) (r c : Z) : bool :=
  occupied g r c && negb (occupied g r (c - 1)) && occupied g r (c + 1).

(** A letter with no letter above and a letter below. *)
Definition down_start (g : Grid) (r c : Z) : bool :=
  occupied g r c && negb (occupied g (r - 1) c) && occupied g (r + 1) c.

Definition starts_entry (g : Grid) (rc : Z * Z) : bool :=
  across_start g rc.1 rc.2 || down_start g rc.1 rc.2.

(** The cells that get a number, in scan order. *)
Definition numbered_cells (N : Z) (g : Grid) : list (Z * Z) :=
  List.filter (starts_entry g) (scan N).

Definition row_major_lt (p q : Z * Z) : Prop :=
  p.1 < q.1 \/ (p.1 = q.1 /\ p.2 < q.2).

(** The cell numbered [n] when the cells of [cells] are numbered from 1. *)
Definition nth_numbered (cells : list (Z * Z)) (n : Z) : option (Z * Z) :=
  if decide (1 <= n) then cells !! Z.to_nat (n - 1) else None.

(** The clue bound in direction [d] to the number of the cell [rc]. *)
Definition clue_at (g : Grid) (placed_words : list PlacedWord)
    (start : Grid -> Z -> Z -> bool) (d : Z) (rc : option (Z * Z))
    : option string :=
  match rc with
  | Some (r, c) => if start g r c then first_clue d r c placed_words else None
  | None => None
  end.

(** The loop variables of [number_grid] after the cells of [cells] have
    been numbered. *)
Definition represents (g : Grid) (placed_words : list PlacedWord)
    (st : Numbering) (cells : list (Z * Z)) : Prop :=
  num st = 1 + Z.of_nat (length cells) /\
  (forall n, numbers st !! n = nth_numbered cells n) /\
  (forall n, across st !! n
             = clue_at g placed_words across_start 0 (nth_numbered cells n)) /\
  (forall n, down st !! n
             = clue_at g placed_words down_start 1 (nth_numbered cells n)).

(** [p] is the first word of the placement order that runs in direction
    [d] and is anchored at [(r, c)]: it stands at some position [i] of the
    list, and no word at an earlier position has this direction and
    anchor. *)
Definition first_anchored (d r c : Z) (placed : list PlacedWord)
    (p : PlacedWord) : Prop :=
  exists i : nat,
    placed !! i = Some p /\
    direction p = d /\ row p = r /\ col p = c /\
    forall (j : nat) (q : PlacedWord),
      (j < i)%nat -> placed !! j = Some q ->
      ~ (direction q = d /\ row q = r /\ col q = c).

(** *** Further observations on placements *)

(** The cell [(r, c)] is one of the target cells of the word. *)
Definition target_of (w : word_t) (row0 col0 d r c : Z) : Prop :=
  exists k : nat,
    (k < length w)%nat /\
    r = cell_row row0 d (Z.of_nat k) /\ c = cell_col col0 d (Z.of_nat k).

(** The letter [x] at [(r, c)] is a letter of one of the placed words. *)
Definition letter_of (placed : list PlacedWord) (r c : Z) (x : ascii) : Prop :=
  exists (p : PlacedWord) (k : nat),
    In p placed /\ word (entry p) !! k = Some x /\
    r = cell_row (row p) (direction p) (Z.of_nat k) /\
    c = cell_col (col p) (direction p) (Z.of_nat k).

Definition word_len (p : PlacedWord) : Z := Z.of_nat (length (word (entry p))).

(** There is no letter just before the start and just after the end of the
    placed word. *)
Definition apart (g : Grid) (p : PlacedWord) : Prop :=
  ends_clear g (row p) (col p) (direction p) (word_len p).

(** Every target cell of the placed word is on the grid. *)
Definition inside (N : Z) (p : PlacedWord) : Prop :=
  targets_on_grid N (word (entry p)) (row p) (col p) (direction p).

(** Two letters side by side in a row are consecutive letters of one
    horizontal placed word, and two letters one above the other are
    consecutive letters of one vertical placed word. *)
Definition joined (g : Grid) (placed : list PlacedWord) : Prop :=
  forall r c, occupied g r c = true ->
    (occupied g r (c + 1) = true ->
       exists p i, In p placed /\ direction p = 0 /\
                   0 <= i /\ i + 1 < word_len p /\
                   r = row p /\ c = col p + i) /\
    (occupied g (r + 1) c = true ->
       exists p i, In p placed /\ direction p = 1 /\
                   0 <= i /\ i + 1 < word_len p /\
                   r = row p + i /\ c = col p).

(** The state of a generation in progress: a square grid whose letters are
    those of the placed words, each of them laid out in full in a valid
    direction, with nothing at either end and no two of them side by
    side. *)
Definition well_laid (N : Z) (g : Grid) (placed : list PlacedWord) : Prop :=
  square N g /\
  Forall (fun p => valid_direction (direction p) /\ covers g p /\ apart g p) placed /\
  (forall r c x, lookup_cell g r c = Some (Some x) -> letter_of placed r c x) /\
  joined g placed.

(** The entries of equal length [n], in the order of the list. *)
Definition of_length (n : nat) (l : list WordEntry) : list WordEntry :=
  List.filter (fun e => (length (word e) =? n)%nat) l.

(** * Verification *)

(** ** Subscripts *)

Lemma py_index_nonneg (n : nat) (i : Z) :
  0 <= i -> py_index n i = if i <? Z.of_nat n then Ok (Z.to_nat i) else IndexError.
Proof.
  intros Hi. unfold py_index.
  destruct (Z.leb_spec 0 i); [|lia].
  destruct (Z.ltb_spec i (Z.of_nat n)); simpl; [done|].
  destruct (Z.ltb_spec i 0); [lia|]. by rewrite andb_false_r.
Qed.

Lemma getitem_nonneg {A : Type} (l : list A) (i : Z) (x : A) :
  0 <= i -> getitem l i = Ok x <-> l !! Z.to_nat i = Some x.
Proof.
  intros Hi. unfold getitem. rewrite py_index_nonneg by done.
  destruct (Z.ltb_spec i (Z.of_nat (length l))).
  - destruct (l !! Z.to_nat i) eqn:E; split; congruence.
  - split; [done|]. intros E. apply lookup_lt_Some in E. lia.
Qed.

Lemma lookup_cell_Some (g : Grid) (r c : Z) (x : cell) :
  lookup_cell g r c = Some x <->
  0 <= r /\ 0 <= c /\
  exists line, g !! Z.to_nat r = Some line /\ line !! Z.to_nat c = Some x.
Proof.
  unfold lookup_cell.
  destruct (Z.leb_spec 0 r), (Z.leb_spec 0 c); simpl;
    try (split; [done | intros (? & ? & _); lia]).
  destruct (g !! Z.to_nat r) as [line|] eqn:E.
  - split; [eauto 6|]. by intros (_ & _ & line' & [= <-] & ?).
  - split; [done|]. by intros (_ & _ & line' & [=] & ?).
Qed.

(** On non-negative coordinates the Python subscript and [lookup_cell]
    agree. *)
Lemma read_nonneg (g : Grid) (r c : Z) (x : cell) :
  0 <= r -> 0 <= c -> read g r c = Ok x <-> lookup_cell g r c = Some x.
Proof.
  intros Hr Hc. rewrite lookup_cell_Some. unfold read.
  destruct (getitem g r) as [line|] eqn:E.
  - apply getitem_nonneg in E; [|done]. rewrite getitem_nonneg by done.
    split; [eauto 6|]. intros (_ & _ & line' & E' & ?). congruence.
  - split; [done|]. intros (_ & _ & line' & E' & ?).
    apply (getitem_nonneg g r line') in E'; [congruence | done].
Qed.

Lemma read_lookup_cell (g : Grid) (r c : Z) (x : cell) :
  lookup_cell g r c = Some x -> read g r c = Ok x.
Proof.
  intros H. pose proof H as (Hr & Hc & _)%lookup_cell_Some.
  by apply read_nonneg.
Qed.

Lemma square_lookup_cell (N : Z) (g : Grid) (r c : Z) :
  square N g -> (exists x, lookup_cell g r c = Some x) <-> on_grid N r c.
Proof.
  intros [Hlen Hrows]. unfold on_grid. split.
  - intros (x & (Hr & Hc & line & Hline & Hx)%lookup_cell_Some).
    pose proof (lookup_lt_Some _ _ _ Hline).
    pose proof (lookup_lt_Some _ _ _ Hx).
    rewrite Forall_lookup in Hrows. specialize (Hrows _ _ Hline). simpl in Hrows. lia.
  - intros [Hr Hc].
    destruct (lookup_lt_is_Some_2 g (Z.to_nat r)) as [line Hline]; [lia|].
    rewrite Forall_lookup in Hrows. pose proof (Hrows _ _ Hline) as Hl. simpl in Hl.
    destruct (lookup_lt_is_Some_2 line (Z.to_nat c)) as [x Hx]; [lia|].
    exists x. apply lookup_cell_Some. split_and!; [lia | lia | eauto].
Qed.

Lemma occupied_off_grid (N : Z) (g : Grid) (r c : Z) :
  square N g -> ~ on_grid N r c -> occupied g r c = false.
Proof.
  intros Hsq Hoff. unfold occupied.
  destruct (lookup_cell g r c) as [x|] eqn:E; [|done].
  exfalso. apply Hoff. eapply square_lookup_cell; eauto.
Qed.

(** ** Writing one cell *)

Lemma write_cell (g : Grid) (r c : Z) (old v : cell) :
  lookup_cell g r c = Some old ->
  exists g',
    write g r c v = Ok g' /\
    (forall r' c', lookup_cell g' r' c' =
       if decide (r' = r /\ c' = c) then Some v else lookup_cell g r' c') /\
    (forall N, square N g -> square N g').
Proof.
  intros (Hr & Hc & line & Hline & Hold)%lookup_cell_Some.
  pose proof (lookup_lt_Some _ _ _ Hline) as Hlr.
  pose proof (lookup_lt_Some _ _ _ Hold) as Hlc.
  exists (<[Z.to_nat r := <[Z.to_nat c := v]> line]> g). split; [|split].
  - unfold write. rewrite (proj2 (getitem_nonneg g r line Hr) Hline).
    unfold setitem. rewrite !py_index_nonneg by done.
    destruct (Z.ltb_spec c (Z.of_nat (length line))); [|lia].
    destruct (Z.ltb_spec r (Z.of_nat (length g))); [|lia]. done.
  - intros r' c'. unfold lookup_cell.
    destruct (Z.leb_spec 0 r'), (Z.leb_spec 0 c'); simpl;
      try (case_decide; [lia | done]).
    destruct (decide (Z.to_nat r' = Z.to_nat r)) as [Er|Er].
    + rewrite Er, list_lookup_insert_eq by done. rewrite Hline.
      destruct (decide (Z.to_nat c' = Z.to_nat c)) as [Ec|Ec].
      * rewrite Ec, list_lookup_insert_eq by done. case_decide; [done | lia].
      * rewrite list_lookup_insert_ne by done. case_decide; [lia | done].
    + rewrite list_lookup_insert_ne by done. case_decide; [lia | done].
  - intros N [Hlen Hrows]. split; [by rewrite length_insert|].
    apply Forall_insert; [done|]. rewrite length_insert.
    rewrite Forall_lookup in Hrows. apply (Hrows _ _ Hline).
Qed.

(** ** Running computations of the grid monad *)

Lemma bind_ok {A B : Type} (m : M A) (k : A -> M B) (g g' : Grid) (a : A) :
  m g = (Ok a, g') -> bind m k g = k a g'.
Proof. intros H. unfold bind. by rewrite H. Qed.

Lemma bind_error {A B : Type} (m : M A) (k : A -> M B) (g g' : Grid) :
  m g = (IndexError, g') -> bind m k g = (IndexError, g').
Proof. intros H. unfold bind. by rewrite H. Qed.


Lemma bind_assoc {A B C : Type} (m : M A) (k : A -> M B) (h : B -> M C) (g : Grid) :
  bind (bind m k) h g = bind m (fun a => bind (k a) h) g.
Proof. unfold bind. by destruct (m g) as [[a|] g1]. Qed.

Lemma bind_ext {A B : Type} (m : M A) (k1 k2 : A -> M B) (g : Grid) :
  (forall a g', k1 a g' = k2 a g') -> bind m k1 g = bind m k2 g.
Proof. intros H. unfold bind. destruct (m g) as [[a|] g1]; [apply H | done]. Qed.

Lemma readonly_ret {A : Type} (a : A) : readonly (ret a).
Proof. done. Qed.

Lemma readonly_bind {A B : Type} (m : M A) (k : A -> M B) :
  readonly m -> (forall a, readonly (k a)) -> readonly (bind m k).
Proof.
  intros Hm Hk g. unfold bind. specialize (Hm g).
  destruct (m g) as [[a|] g1]; simpl in *; subst; [apply Hk | done].
Qed.

Lemma readonly_grid_len : readonly grid_len.
Proof. done. Qed.

Lemma readonly_grid_get (r c : Z) : readonly (grid_get r c).
Proof. done. Qed.

Ltac readonly_tac :=
  repeat first
    [ apply readonly_ret
    | apply readonly_grid_get
    | apply readonly_grid_len
    | apply readonly_bind; [|intros ?]
    | match goal with
      | |- readonly (if ?b then _ else _) => destruct b
      | |- readonly (match ?x with Some _ => _ | None => _ end) => destruct x
      end
    | assumption ].

Lemma readonly_guarded_letter (guard : bool) (r c : Z) :
  readonly (guarded_letter guard r c).
Proof. unfold guarded_letter. readonly_tac. Qed.

Lemma readonly_side_blocked (size d r c : Z) : readonly (side_blocked size d r c).
Proof.
  unfold side_blocked.
  destruct (d =? 0);
    (apply readonly_bind; [apply readonly_guarded_letter|]);
    intros []; auto using readonly_guarded_letter, readonly_ret.
Qed.

Lemma readonly_ends_blocked (size row0 col0 d len : Z) :
  readonly (ends_blocked size row0 col0 d len).
Proof.
  unfold ends_blocked.
  destruct (d =? 0);
    (apply readonly_bind; [apply readonly_guarded_letter|]);
    intros []; auto using readonly_guarded_letter, readonly_ret.
Qed.

Lemma readonly_can_place_cells (size row0 col0 d : Z) (w : word_t) (i : Z) :
  readonly (can_place_cells size row0 col0 d i w).
Proof.
  revert i. induction w as [|ch rest IH]; intros i; simpl; [apply readonly_ret|].
  destruct (_ || _); [apply readonly_ret|].
  apply readonly_bind; [apply readonly_grid_get|]. intros [e|].
  - destruct (negb _); [apply readonly_ret | apply IH].
  - apply readonly_bind; [apply readonly_side_blocked|].
    intros []; [apply readonly_ret | apply IH].
Qed.

Lemma readonly_can_place (w : word_t) (row0 col0 d : Z) :
  readonly (can_place w row0 col0 d).
Proof.
  unfold can_place. apply readonly_bind; [apply readonly_grid_len|]. intros size.
  apply readonly_bind; [apply readonly_can_place_cells|]. intros [].
  - apply readonly_bind; [apply readonly_ends_blocked|]. intros ?. apply readonly_ret.
  - apply readonly_ret.
Qed.

(** What [can_place] leaves behind, in a form that rewrites. *)
Lemma can_place_frame (w : word_t) (row0 col0 d : Z) (g : Grid) :
  can_place w row0 col0 d g = (fst (can_place w row0 col0 d g), g).
Proof.
  pose proof (readonly_can_place w row0 col0 d g) as H.
  destruct (can_place w row0 col0 d g); simpl in *. by subst.
Qed.

(** ** The validator on a square grid *)

Section Square.

Variable N : Z.
Variable g : Grid.
Hypothesis Hsq : square N g.

Lemma grid_get_on_grid (r c : Z) :
  on_grid N r c -> exists x, lookup_cell g r c = Some x /\ grid_get r c g = (Ok x, g).
Proof.
  intros Hon. destruct (proj2 (square_lookup_cell N g r c Hsq) Hon) as [x Hx].
  exists x. split; [done|]. unfold grid_get. by rewrite (read_lookup_cell _ _ _ _ Hx).
Qed.

(** A guarded test whose guard is exactly "the cell is on the grid". *)
Lemma guarded_letter_occupied (guard : bool) (r c : Z) :
  (guard = true <-> on_grid N r c) ->
  guarded_letter guard r c g = (Ok (occupied g r c), g).
Proof.
  intros Hguard. unfold guarded_letter. destruct guard.
  - destruct (grid_get_on_grid r c) as (x & Hx & Hrun); [by apply Hguard|].
    rewrite (bind_ok _ _ _ _ _ Hrun). unfold occupied. rewrite Hx. by destruct x.
  - rewrite (occupied_off_grid N); [done | done |].
    intros Hon. by apply Hguard in Hon.
Qed.


Lemma side_blocked_run (d r c : Z) :
  on_grid N r c ->
  exists b, side_blocked N d r c g = (Ok b, g) /\ (b = false <-> sides_clear g d r c).
Proof.
  intros [Hr Hc]. unfold side_blocked, sides_clear. destruct (d =? 0).
  - rewrite (bind_ok _ _ g g (occupied g (r - 1) c)).
    2:{ apply guarded_letter_occupied. unfold on_grid. rewrite Z.gtb_ltb, Z.ltb_lt. lia. }
    destruct (occupied g (r - 1) c).
    + exists true. split; [done|]. split; [done | by intros [? _]].
    + exists (occupied g (r + 1) c). split; [|tauto].
      apply guarded_letter_occupied. unfold on_grid. rewrite Z.ltb_lt. lia.
  - rewrite (bind_ok _ _ g g (occupied g r (c - 1))).
    2:{ apply guarded_letter_occupied. unfold on_grid. rewrite Z.gtb_ltb, Z.ltb_lt. lia. }
    destruct (occupied g r (c - 1)).
    + exists true. split; [done|]. split; [done | by intros [? _]].
    + exists (occupied g r (c + 1)). split; [|tauto].
      apply guarded_letter_occupied. unfold on_grid. rewrite Z.ltb_lt. lia.
Qed.


Lemma cells_ok_cons (row0 col0 d i : Z) (ch : ascii) (rest : word_t) :
  cells_ok N g row0 col0 d i (ch :: rest) <->
  cell_ok N g d (cell_row row0 d i) (cell_col col0 d i) ch /\
  cells_ok N g row0 col0 d (i + 1) rest.
Proof.
  unfold cells_ok. split.
  - intros H. split.
    + specialize (H 0%nat ch eq_refl). by rewrite Z.add_0_r in H.
    + intros k a Hk. specialize (H (S k) a Hk).
      by replace (i + 1 + Z.of_nat k) with (i + Z.of_nat (S k)) by lia.
  - intros [H0 H] [|k] a Hk.
    + injection Hk as <-. by rewrite Z.add_0_r.
    + specialize (H k a Hk).
      by replace (i + 1 + Z.of_nat k) with (i + Z.of_nat (S k)) in H by lia.
Qed.

Lemma can_place_cells_run (row0 col0 d : Z) (w : word_t) (i : Z) :
  exists b,
    can_place_cells N row0 col0 d i w g = (Ok b, g) /\
    (b = true <-> cells_ok N g row0 col0 d i w).
Proof.
  revert i. induction w as [|ch rest IH]; intros i.
  - exists true. split; [done|]. split; [|done]. by intros _ k a Hk.
  - setoid_rewrite cells_ok_cons. simpl.
    set (r := cell_row row0 d i). set (c := cell_col col0 d i).
    destruct (_ || _) eqn:Hout.
    + exists false. split; [done|]. split; [done|].
      intros [([Hr Hc] & _) _]. exfalso.
      rewrite !orb_true_iff, !Z.ltb_lt, !Z.geb_le in Hout. lia.
    + rewrite !orb_false_iff, !Z.ltb_ge, Z.geb_leb, Z.geb_leb, !Z.leb_gt in Hout.
      assert (Hon : on_grid N r c) by (unfold on_grid; lia).
      destruct (grid_get_on_grid r c Hon) as (x & Hx & Hrun).
      rewrite (bind_ok _ _ _ _ _ Hrun). destruct x as [e|].
      * destruct (Ascii.eqb_spec e ch) as [->|Hne]; simpl.
        -- destruct (IH (i + 1)) as (b & Hb & Hiff). exists b. split; [done|].
           rewrite Hiff. unfold cell_ok. rewrite Hx. split; [|tauto].
           intros H. split; [|done]. split; [done|]. split; [congruence | done].
        -- exists false. split; [done|]. split; [done|].
           intros [(_ & Hsame & _) _]. exfalso. by apply Hne, Hsame.
      * destruct (side_blocked_run d r c Hon) as (blocked & Hrun' & Hclear).
        rewrite (bind_ok _ _ _ _ _ Hrun'). destruct blocked.
        -- exists false. split; [done|]. split; [done|].
           intros [(_ & _ & Hs) _]. exfalso.
           specialize (Hs Hx). by apply Hclear in Hs.
        -- destruct (IH (i + 1)) as (b & Hb & Hiff). exists b. split; [done|].
           rewrite Hiff. unfold cell_ok. rewrite Hx. split; [|tauto].
           intros H. split; [|done]. split; [done|].
           split; [congruence | intros _; by apply Hclear].
Qed.


Lemma ends_blocked_run (row0 col0 d len : Z) :
  on_grid N row0 col0 -> 0 < len ->
  exists b, ends_blocked N row0 col0 d len g = (Ok b, g) /\
            (b = false <-> ends_clear g row0 col0 d len).
Proof.
  intros [Hr Hc] Hlen. unfold ends_blocked, ends_clear. destruct (d =? 0).
  - rewrite (bind_ok _ _ g g (occupied g row0 (col0 - 1))).
    2:{ apply guarded_letter_occupied. unfold on_grid. rewrite Z.gtb_ltb, Z.ltb_lt. lia. }
    destruct (occupied g row0 (col0 - 1)).
    + exists true. split; [done|]. split; [done | by intros [? _]].
    + exists (occupied g row0 (col0 + len)). split; [|tauto].
      apply guarded_letter_occupied. unfold on_grid. rewrite Z.ltb_lt. lia.
  - rewrite (bind_ok _ _ g g (occupied g (row0 - 1) col0)).
    2:{ apply guarded_letter_occupied. unfold on_grid. rewrite Z.gtb_ltb, Z.ltb_lt. lia. }
    destruct (occupied g (row0 - 1) col0).
    + exists true. split; [done|]. split; [done | by intros [? _]].
    + exists (occupied g (row0 + len) col0). split; [|tauto].
      apply guarded_letter_occupied. unfold on_grid. rewrite Z.ltb_lt. lia.
Qed.

Lemma cell_row_0 (row0 d : Z) : cell_row row0 d 0 = row0.
Proof. unfold cell_row. lia. Qed.

Lemma cell_col_0 (col0 d : Z) : cell_col col0 d 0 = col0.
Proof. unfold cell_col. lia. Qed.

(** [can_place] with a word of at least one letter: it returns, leaves the
    grid alone, and says yes exactly when every letter is accepted and both
    ends are clear. *)
Lemma can_place_run (w : word_t) (row0 col0 d : Z) :
  w <> [] ->
  exists b,
    can_place w row0 col0 d g = (Ok b, g) /\
    (b = true <->
       cells_ok N g row0 col0 d 0 w /\
       ends_clear g row0 col0 d (Z.of_nat (length w))).
Proof.
  intros Hne. unfold can_place.
  assert (Hlen : grid_len g = (Ok N, g)).
  { unfold grid_len. destruct Hsq as [-> _]. done. }
  rewrite (bind_ok _ _ _ _ _ Hlen).
  destruct (can_place_cells_run row0 col0 d w 0) as (fits & Hrun & Hfits).
  rewrite (bind_ok _ _ _ _ _ Hrun). destruct fits.
  - assert (Hcells : cells_ok N g row0 col0 d 0 w) by by apply Hfits.
    destruct w as [|ch rest]; [done|].
    destruct (Hcells 0%nat ch eq_refl) as (Hon & _).
    simpl in Hon. rewrite cell_row_0, cell_col_0 in Hon.
    destruct (ends_blocked_run row0 col0 d (Z.of_nat (length (ch :: rest))) Hon)
      as (blocked & Hrun' & Hclear); [simpl; lia|].
    rewrite (bind_ok _ _ _ _ _ Hrun'). exists (negb blocked). split; [done|].
    rewrite <- Hclear. destruct blocked; simpl; intuition congruence.
  - exists false. split; [done|]. split; [done|]. intros [H _]. by apply Hfits.
Qed.

End Square.

Lemma can_place_result (w : word_t) (row0 col0 d : Z) (g : Grid) (res : result bool) :
  fst (can_place w row0 col0 d g) = res -> can_place w row0 col0 d g = (res, g).
Proof. intros <-. apply can_place_frame. Qed.

(** ** [can_place] answers yes only on cells it has read *)

Lemma can_place_cells_accepts (size row0 col0 d : Z) (g : Grid) (w : word_t) (i : Z) :
  fst (can_place_cells size row0 col0 d i w g) = Ok true ->
  forall (k : nat) (ch : ascii),
    w !! k = Some ch ->
    accepts g (cell_row row0 d (i + Z.of_nat k)) (cell_col col0 d (i + Z.of_nat k)) ch.
Proof.
  revert i. induction w as [|a rest IH]; intros i Hrun k ch Hk; [done|].
  simpl in Hrun.
  set (r := cell_row row0 d i) in *. set (c := cell_col col0 d i) in *.
  destruct (_ || _) eqn:Hout; [done|].
  rewrite !orb_false_iff, !Z.ltb_ge in Hout. destruct Hout as [[[Hr _] Hc] _].
  unfold bind, grid_get in Hrun.
  destruct (read g r c) as [x|] eqn:Hread; [|done].
  apply read_nonneg in Hread; [|done..].
  assert (Hrest : fst (can_place_cells size row0 col0 d (i + 1) rest g) = Ok true
                  /\ accepts g r c a).
  { destruct x as [e|].
    - destruct (Ascii.eqb_spec e a) as [->|]; [|done]. split; [done | by right].
    - pose proof (readonly_side_blocked size d r c g) as Hro.
      destruct (side_blocked size d r c g) as [[[]|] g1]; simpl in *; subst; try done.
      split; [done | by left]. }
  destruct Hrest as [Hrest H0]. destruct k as [|k].
  - injection Hk as <-. by rewrite Z.add_0_r.
  - replace (i + Z.of_nat (S k)) with (i + 1 + Z.of_nat k) by lia. by apply IH.
Qed.

Lemma can_place_accepts (w : word_t) (row0 col0 d : Z) (g : Grid) :
  fst (can_place w row0 col0 d g) = Ok true ->
  forall (k : nat) (ch : ascii),
    w !! k = Some ch ->
    accepts g (cell_row row0 d (Z.of_nat k)) (cell_col col0 d (Z.of_nat k)) ch.
Proof.
  intros Hrun k ch Hk. unfold can_place, bind, grid_len in Hrun.
  pose proof (readonly_can_place_cells (Z.of_nat (length g)) row0 col0 d w 0 g) as Hro.
  pose proof (can_place_cells_accepts (Z.of_nat (length g)) row0 col0 d g w 0) as Hacc.
  destruct (can_place_cells _ _ _ _ _ _ g) as [[[]|] g1]; simpl in *; subst; try done.
  by apply (Hacc eq_refl k ch Hk).
Qed.

(** ** The writer *)

Lemma cell_distinct (row0 col0 d i j : Z) :
  valid_direction d -> i <> j ->
  ~ (cell_row row0 d i = cell_row row0 d j /\ cell_col col0 d i = cell_col col0 d j).
Proof.
  unfold cell_row, cell_col. intros [-> | ->] Hij; simpl; lia.
Qed.

Lemma place_word_from_run (row0 col0 d : Z) (w : word_t) :
  valid_direction d ->
  forall (i : Z) (g : Grid),
    (forall (k : nat) (ch : ascii), w !! k = Some ch ->
       accepts g (cell_row row0 d (i + Z.of_nat k)) (cell_col col0 d (i + Z.of_nat k)) ch) ->
    exists g',
      place_word_from row0 col0 d i w g = (Ok tt, g') /\
      (forall (k : nat) (ch : ascii), w !! k = Some ch ->
         lookup_cell g' (cell_row row0 d (i + Z.of_nat k))
                        (cell_col col0 d (i + Z.of_nat k)) = Some (Some ch)) /\
      (forall r c x, lookup_cell g r c = Some (Some x) ->
                     lookup_cell g' r c = Some (Some x)) /\
      (forall N, square N g -> square N g').
Proof.
  intros Hd. induction w as [|a rest IH]; intros i g Hacc.
  - exists g. split; [done|]. split; [by intros k ch Hk | done].
  - set (r := cell_row row0 d i). set (c := cell_col col0 d i).
    assert (H0 : accepts g r c a).
    { specialize (Hacc 0%nat a eq_refl). by rewrite Z.add_0_r in Hacc. }
    assert (exists old, lookup_cell g r c = Some old) as [old Hold].
    { destruct H0; eauto. }
    destruct (write_cell g r c old (Some a) Hold) as (g1 & Hwrite & Hlook & Hsq1).
    destruct (IH (i + 1) g1) as (g' & Hrun & Hcov & Hext & Hsq').
    { intros k ch Hk. unfold accepts. rewrite Hlook.
      case_decide as Hsame.
      - exfalso. apply (cell_distinct row0 col0 d (i + 1 + Z.of_nat k) i Hd); [lia | done].
      - specialize (Hacc (S k) ch Hk).
        by replace (i + Z.of_nat (S k)) with (i + 1 + Z.of_nat k) in Hacc by lia. }
    exists g'. split; [|split; [|split]].
    + simpl. unfold bind, grid_set. fold r c. by rewrite Hwrite.
    + intros [|k] ch Hk.
      * injection Hk as <-. rewrite Z.add_0_r. apply Hext. rewrite Hlook.
        by rewrite decide_True.
      * replace (i + Z.of_nat (S k)) with (i + 1 + Z.of_nat k) by lia. by apply Hcov.
    + intros r' c' x Hx. apply Hext. rewrite Hlook. case_decide as Hsame; [|done].
      destruct Hsame as [-> ->]. destruct H0 as [H0|H0]; congruence.
    + intros N HN. by apply Hsq', Hsq1.
Qed.

(** After a yes of [can_place], [place_word] writes every letter, keeps the
    letters that were there and the shape of the grid. *)
Lemma place_word_run (w : word_t) (row0 col0 d : Z) (g : Grid) :
  valid_direction d ->
  fst (can_place w row0 col0 d g) = Ok true ->
  exists g',
    place_word w row0 col0 d g = (Ok tt, g') /\
    (forall (k : nat) (ch : ascii), w !! k = Some ch ->
       lookup_cell g' (cell_row row0 d (Z.of_nat k))
                      (cell_col col0 d (Z.of_nat k)) = Some (Some ch)) /\
    (forall r c x, lookup_cell g r c = Some (Some x) ->
                   lookup_cell g' r c = Some (Some x)) /\
    (forall N, square N g -> square N g').
Proof.
  intros Hd Hyes.
  destruct (place_word_from_run row0 col0 d w Hd 0 g) as (g' & Hrun & Hcov & Hext & Hsq).
  { intros k ch Hk. rewrite Z.add_0_l. by apply (can_place_accepts w). }
  exists g'. split_and!; [done | | done | done].
  intros k ch Hk. specialize (Hcov k ch Hk). by rewrite Z.add_0_l in Hcov.
Qed.

Lemma read_cells_covered (g : Grid) (row0 col0 d : Z) (w : word_t) (i : Z) :
  (forall (k : nat) (ch : ascii), w !! k = Some ch ->
     lookup_cell g (cell_row row0 d (i + Z.of_nat k))
                   (cell_col col0 d (i + Z.of_nat k)) = Some (Some ch)) ->
  read_cells g row0 col0 d i (length w) = Ok (Some <$> w).
Proof.
  revert i. induction w as [|a rest IH]; intros i Hcov; [done|].
  simpl. pose proof (Hcov 0%nat a eq_refl) as H0. rewrite Z.add_0_r in H0.
  rewrite (read_lookup_cell _ _ _ _ H0). rewrite IH; [done|].
  intros k ch Hk. specialize (Hcov (S k) ch Hk).
  by replace (i + Z.of_nat (S k)) with (i + 1 + Z.of_nat k) in Hcov by lia.
Qed.

Lemma covers_reads_back (g : Grid) (p : PlacedWord) : covers g p -> reads_back g p.
Proof.
  intros H. apply read_cells_covered. intros k ch Hk. rewrite Z.add_0_l. by apply H.
Qed.

Lemma covers_agree (g : Grid) (placed : list PlacedWord) :
  Forall (covers g) placed -> agree_on_shared placed.
Proof.
  rewrite Forall_forall. intros Hcov p q i j a b Hp Hq Ha Hb Hr Hc.
  apply list_elem_of_In in Hp, Hq.
  pose proof (Hcov p Hp i a Ha) as H1. pose proof (Hcov q Hq j b Hb) as H2.
  rewrite Hr, Hc in H1. congruence.
Qed.

(** ** The crossing search is a first-fit over [crossings] *)

Lemma first_fit_app (w : word_t) (l1 l2 : list (Z * Z * Z)) (g : Grid) :
  first_fit w (l1 ++ l2) g =
  match first_fit w l1 g with
  | Ok None => first_fit w l2 g
  | found => found
  end.
Proof.
  induction l1 as [|[[r c] d] l1 IH]; simpl; [done|].
  by destruct (fst (can_place w r c d g)) as [[]|].
Qed.

(** A loop whose body is itself a first-fit search over [l1] and which
    goes on with a search over [l2] is a search over [l1 ++ l2]. *)
Lemma search_then (e : WordEntry) (m next : M (option PlacedWord))
    (l1 l2 : list (Z * Z * Z)) (g : Grid) :
  m g = first_fit_search e l1 g ->
  next g = first_fit_search e l2 g ->
  bind m (fun found => match found with
                       | Some q => ret (Some q)
                       | None => next
                       end) g
  = first_fit_search e (l1 ++ l2) g.
Proof.
  intros Hm Hnext. unfold bind. rewrite Hm. unfold first_fit_search.
  rewrite first_fit_app.
  destruct (first_fit (word e) l1 g) as [[[[r c] d]|]|]; simpl; [|done..].
  unfold bind. by destruct (place_word (word e) r c d g) as [[[]|] g'].
Qed.

Lemma try_cross_letters_search (e : WordEntry) (p : PlacedWord) (i : Z)
    (pw_ch : ascii) (wl : word_t) (j : Z) (g : Grid) :
  try_cross_letters e p i pw_ch j wl g
  = first_fit_search e (crossings_at (enumerate_from j wl) p i pw_ch) g.
Proof.
  revert j. induction wl as [|ch rest IH]; intros j; [done|].
  simpl. destruct (Ascii.eqb pw_ch ch); simpl; [|apply IH].
  destruct (crossing p i j) as [[r c] d].
  unfold first_fit_search, bind at 1. simpl. rewrite can_place_frame.
  destruct (fst (can_place (word e) r c d g)) as [[]|]; simpl; [done | apply IH | done].
Qed.

Lemma try_cross_word_search (e : WordEntry) (p : PlacedWord) (pwl : word_t)
    (i : Z) (g : Grid) :
  try_cross_word e p i pwl g
  = first_fit_search e
      (flat_map (fun ia => crossings_at (enumerate_from 0 (word e)) p (fst ia) (snd ia))
                (enumerate_from i pwl)) g.
Proof.
  revert i. induction pwl as [|a rest IH]; intros i; [done|].
  simpl. apply search_then; [apply try_cross_letters_search | apply IH].
Qed.

Lemma try_place_word_search (e : WordEntry) (placed : list PlacedWord) (g : Grid) :
  try_place_word e placed g = first_fit_search e (crossings (word e) placed) g.
Proof.
  induction placed as [|p rest IH]; [done|].
  simpl. apply search_then; [apply try_cross_word_search | apply IH].
Qed.

Lemma crossing_direction (p : PlacedWord) (i j : Z) :
  valid_direction (snd (crossing p i j)).
Proof. unfold crossing, valid_direction. destruct (direction p =? 0); simpl; lia. Qed.

Lemma crossings_valid (w : word_t) (placed : list PlacedWord) (x : Z * Z * Z) :
  In x (crossings w placed) -> valid_direction (snd x).
Proof.
  unfold crossings, crossings_with, crossings_at.
  intros (p & _ & (ia & _ & (jc & _ & Hx)%in_flat_map)%in_flat_map)%in_flat_map.
  destruct (Ascii.eqb _ _); [|done].
  destruct Hx as [<-|[]]. apply crossing_direction.
Qed.

Lemma crossings_nil (placed : list PlacedWord) : crossings [] placed = [].
Proof.
  unfold crossings. induction placed as [|p rest IH]; [done|].
  simpl. rewrite IH, app_nil_r. unfold crossings_with.
  generalize 0. induction (word (entry p)) as [|a l IHl]; intros i; [done|].
  simpl. apply IHl.
Qed.

Lemma first_fit_Some (w : word_t) (cands : list (Z * Z * Z)) (g : Grid) (x : Z * Z * Z) :
  first_fit w cands g = Ok (Some x) ->
  In x cands /\ fst (can_place w x.1.1 x.1.2 x.2 g) = Ok true.
Proof.
  induction cands as [|[[r c] d] rest IH]; simpl; [done|].
  destruct (fst (can_place w r c d g)) as [[]|] eqn:E; [| |done].
  - intros [= <-]. simpl. auto.
  - intros H. destruct (IH H). auto.
Qed.

(** What a search leaves behind: a committed placement is one of the
    candidates, validated on the grid as it was and then written in full;
    otherwise the grid is the one the search started from. *)
Lemma first_fit_search_cases (e : WordEntry) (cands : list (Z * Z * Z)) (g : Grid) :
  (forall x, In x cands -> valid_direction (snd x)) ->
  match first_fit_search e cands g with
  | (Ok (Some p), g') =>
      entry p = e /\ In (row p, col p, direction p) cands /\
      valid_direction (direction p) /\
      first_fit (word e) cands g = Ok (Some (row p, col p, direction p)) /\
      fst (can_place (word e) (row p) (col p) (direction p) g) = Ok true /\
      place_word (word e) (row p) (col p) (direction p) g = (Ok tt, g')
  | (Ok None, g') => g' = g /\ first_fit (word e) cands g = Ok None
  | (IndexError, g') => g' = g /\ first_fit (word e) cands g = IndexError
  end.
Proof.
  intros Hvalid. unfold first_fit_search.
  destruct (first_fit (word e) cands g) as [[[[r c] d]|]|] eqn:Hfit; simpl; [|done..].
  apply first_fit_Some in Hfit as Hx. destruct Hx as [Hin Hyes]. simpl in Hyes.
  pose proof (Hvalid _ Hin) as Hd. simpl in Hd.
  destruct (place_word_run (word e) r c d g Hd Hyes) as (g' & Hrun & _).
  unfold bind. rewrite Hrun. simpl. done.
Qed.

Lemma first_fit_total (N : Z) (g : Grid) (w : word_t) (cands : list (Z * Z * Z)) :
  square N g -> w <> [] -> exists found, first_fit w cands g = Ok found.
Proof.
  intros Hsq Hne. induction cands as [|[[r c] d] rest IH]; simpl; [eauto|].
  destruct (can_place_run N g Hsq w r c d Hne) as (b & -> & _). simpl.
  destruct b; eauto.
Qed.

(** One step of the crossing phase on a square grid: it does not raise, the
    grid stays square, no letter is lost, and a placed word is laid out in
    full. *)
Lemma try_place_word_step (N : Z) (g : Grid) (e : WordEntry) (placed : list PlacedWord) :
  square N g ->
  exists found g',
    try_place_word e placed g = (Ok found, g') /\
    square N g' /\
    (forall r c x, lookup_cell g r c = Some (Some x) ->
                   lookup_cell g' r c = Some (Some x)) /\
    match found with
    | Some p => covers g' p
    | None => g' = g
    end.
Proof.
  intros Hsq. rewrite try_place_word_search.
  pose proof (first_fit_search_cases e (crossings (word e) placed) g
                (crossings_valid (word e) placed)) as Hcases.
  destruct (first_fit_search e (crossings (word e) placed) g) as [[[p|]|] g'].
  - destruct Hcases as (He & _ & Hd & _ & Hyes & Hrun).
    destruct (place_word_run (word e) (row p) (col p) (direction p) g Hd Hyes)
      as (g'' & Hrun' & Hcov & Hext & Hsq').
    rewrite Hrun in Hrun'. injection Hrun' as <-.
    exists (Some p), g'. split_and!; [done | by apply Hsq' | done |].
    intros k ch Hk. rewrite He in Hk. by apply Hcov.
  - destruct Hcases as [-> _]. by exists None, g.
  - exfalso. destruct Hcases as [_ Herr].
    destruct (word e) as [|a l] eqn:Hw.
    + by rewrite crossings_nil in Herr.
    + destruct (first_fit_total N g (a :: l) (crossings (a :: l) placed) Hsq)
        as [found Hfound]; [done | congruence].
Qed.

(** ** The validator against the four placement conditions *)

Lemma cells_ok_legal (N : Z) (g : Grid) (w : word_t) (row0 col0 d : Z) :
  cells_ok N g row0 col0 d 0 w <->
  targets_on_grid N w row0 col0 d /\
  no_conflict g w row0 col0 d /\
  empty_targets_isolated g w row0 col0 d.
Proof.
  unfold cells_ok, cell_ok, targets_on_grid, no_conflict, empty_targets_isolated.
  setoid_rewrite Z.add_0_l. split.
  - intros H. split_and!.
    + intros i Hi. destruct (lookup_lt_is_Some_2 w i Hi) as [ch Hch].
      by destruct (H i ch Hch).
    + intros i ch x Hch. by destruct (H i ch Hch) as (_ & ? & _); auto.
    + intros i Hi. destruct (lookup_lt_is_Some_2 w i Hi) as [ch Hch].
      by destruct (H i ch Hch) as (_ & _ & ?).
  - intros (Hon & Hsame & Hside) k ch Hk.
    pose proof (lookup_lt_Some _ _ _ Hk). split_and!; eauto.
Qed.

(** C1, as the code has it: for a word of at least one letter, a direction
    that is horizontal (0) or vertical (1) and a grid of size [N],
    [can_place] returns, and returns [True] exactly when (1) every target
    cell is on the grid, (2) no target cell holds another letter, (3) every
    empty target cell has no letter beside it across the word's direction,
    and (4) the cells before the start and after the end hold no letter. *)
Theorem can_place_iff_legal (N : Z) (g : Grid) (w : word_t) (row0 col0 d : Z) :
  square N g -> valid_direction d -> w <> [] ->
  exists b,
    can_place w row0 col0 d g = (Ok b, g) /\
    (b = true <-> legal_placement N g w row0 col0 d).
Proof.
  intros Hsq _ Hne.
  destruct (can_place_run N g Hsq w row0 col0 d Hne) as (b & Hrun & Hiff).
  exists b. split; [done|]. rewrite Hiff, cells_ok_legal.
  unfold legal_placement. tauto.
Qed.

Lemma can_place_iff_legal_witness :
  exists b,
    can_place ["A"; "B"]%char 1 0 0 (initialise_grid 3) = (Ok b, initialise_grid 3) /\
    (b = true <-> legal_placement 3 (initialise_grid 3) ["A"; "B"]%char 1 0 0).
Proof.
  apply (can_place_iff_legal 3 (initialise_grid 3) ["A"; "B"]%char 1 0 0).
  - split; [reflexivity | repeat constructor].
  - left. reflexivity.
  - discriminate.
Defined.

(** C1 as stated, for every word, fails on the empty word: anchored at
    row -1, column 1 of the one-cell grid holding a letter, the four
    conditions hold (there is no target cell and both end cells are off the
    grid), yet the subscript [grid[-1][0]] wraps around to the letter and
    [can_place] returns [False]. *)
Lemma can_place_empty_word_counterexample :
  square 1 [[Some "A"%char]] /\ valid_direction 0 /\
  ~ (fst (can_place [] (-1) 1 0 [[Some "A"%char]]) = Ok true <->
     legal_placement 1 [[Some "A"%char]] [] (-1) 1 0).
Proof.
  split; [split; [reflexivity | repeat constructor]|].
  split; [by left|].
  intros [_ H]. enough (Ok false = @Ok bool true) by done.
  apply H. unfold legal_placement, targets_on_grid, no_conflict,
    empty_targets_isolated, ends_clear.
  split_and!; try done; simpl; intros; lia.
Qed.

(** ** First-fit order of the crossing search *)

(** C2: [try_place_word] is the first-fit search over [crossings]: the
    candidate placements listed by placed word (oldest first), then by the
    placed word's letter index, then by the candidate's letter index, one for
    each pair of equal letters; the first one that [can_place] accepts is
    written by [place_word] and returned, and [None] is returned when there
    is none.  A horizontal placed word is crossed vertically at
    [(row - j, col + i)], a vertical one horizontally at
    [(row + i, col - j)]. *)
Theorem try_place_word_first_fit (e : WordEntry) (placed : list PlacedWord) (g : Grid) :
  try_place_word e placed g = first_fit_search e (crossings (word e) placed) g /\
  (forall (x : WordEntry) (r c i j : Z),
     crossing (mkPlacedWord x r c 0) i j = (r - j, c + i, 1)) /\
  (forall (x : WordEntry) (r c i j : Z),
     crossing (mkPlacedWord x r c 1) i j = (r + i, c - j, 0)).
Proof. split; [apply try_place_word_search | done]. Qed.

(** ** Round trip of the writer *)

(** C6: when [can_place] returns [True], [place_word] with the same
    arguments completes and reading the target cells in index order gives
    the letters of the word. *)
Theorem place_then_read (w : word_t) (row0 col0 d : Z) (g : Grid) :
  valid_direction d ->
  fst (can_place w row0 col0 d g) = Ok true ->
  exists g',
    place_word w row0 col0 d g = (Ok tt, g') /\
    read_word g' row0 col0 d (length w) = Ok (Some <$> w).
Proof.
  intros Hd Hyes.
  destruct (place_word_run w row0 col0 d g Hd Hyes) as (g' & Hrun & Hcov & _).
  exists g'. split; [done|]. apply read_cells_covered.
  intros k ch Hk. rewrite Z.add_0_l. by apply Hcov.
Qed.

Lemma place_then_read_witness :
  exists g',
    place_word ["A"; "B"]%char 1 0 0 (initialise_grid 3) = (Ok tt, g') /\
    read_word g' 1 0 0 2 = Ok [Some "A"; Some "B"]%char.
Proof.
  apply (place_then_read ["A"; "B"]%char 1 0 0 (initialise_grid 3)).
  - left. reflexivity.
  - reflexivity.
Defined.

(** ** No write without validation *)

Lemma place_first_cases (size : Z) (first : WordEntry) (g : Grid) :
  let r := size / 2 in
  let c := Z.max 0 ((size - Z.of_nat (length (word first))) / 2) in
  match fst (can_place (word first) r c 0 g) with
  | Ok true =>
      exists g', place_word (word first) r c 0 g = (Ok tt, g') /\
                 place_first size first g = (Ok [mkPlacedWord first r c 0], g')
  | Ok false => place_first size first g = (Ok [], g)
  | IndexError => place_first size first g = (IndexError, g)
  end.
Proof.
  intros r c. unfold place_first. fold r c.
  destruct (fst (can_place (word first) r c 0 g)) as [[]|] eqn:Hyes;
    apply can_place_result in Hyes as Hcan.
  - destruct (place_word_run (word first) r c 0 g) as (g' & Hrun & _); [by left | done |].
    exists g'. split; [done|]. rewrite (bind_ok _ _ _ _ _ Hcan).
    by rewrite (bind_ok _ _ _ _ _ Hrun).
  - by rewrite (bind_ok _ _ _ _ _ Hcan).
  - by rewrite (bind_error _ _ _ _ Hcan).
Qed.

(** C7: [can_place] leaves the grid as it was, whatever it returns.  In the
    generation flow, [try_place_word] and the seeding step either return a
    placement that [can_place] accepted on the grid as it was and that
    [place_word] wrote in full, or leave the grid unchanged. *)
Theorem can_place_never_writes :
  (forall (w : word_t) (row0 col0 d : Z) (g : Grid),
     snd (can_place w row0 col0 d g) = g) /\
  (forall (e : WordEntry) (placed : list PlacedWord) (g : Grid),
     match try_place_word e placed g with
     | (Ok (Some p), g') =>
         entry p = e /\
         fst (can_place (word e) (row p) (col p) (direction p) g) = Ok true /\
         place_word (word e) (row p) (col p) (direction p) g = (Ok tt, g')
     | (_, g') => g' = g
     end) /\
  (forall (size : Z) (first : WordEntry) (g : Grid),
     match place_first size first g with
     | (Ok (p :: _), g') =>
         entry p = first /\
         fst (can_place (word first) (row p) (col p) (direction p) g) = Ok true /\
         place_word (word first) (row p) (col p) (direction p) g = (Ok tt, g')
     | (_, g') => g' = g
     end).
Proof.
  split_and!.
  - intros. apply readonly_can_place.
  - intros e placed g. rewrite try_place_word_search.
    pose proof (first_fit_search_cases e (crossings (word e) placed) g
                  (crossings_valid (word e) placed)) as Hcases.
    destruct (first_fit_search e (crossings (word e) placed) g) as [[[p|]|] g'];
      tauto.
  - intros size first g. pose proof (place_first_cases size first g) as Hcases.
    simpl in Hcases.
    destruct (fst (can_place (word first) _ _ 0 g)) as [[]|] eqn:Hyes.
    + destruct Hcases as (g' & Hrun & ->). done.
    + by rewrite Hcases.
    + by rewrite Hcases.
Qed.

(** ** Words longer than the grid *)

Lemma too_long_rejected (N : Z) (g : Grid) (w : word_t) (row0 col0 d : Z) :
  square N g -> N < Z.of_nat (length w) -> valid_direction d ->
  can_place w row0 col0 d g = (Ok false, g).
Proof.
  intros Hsq Hlong Hd.
  destruct (can_place_run N g Hsq w row0 col0 d) as (b & Hrun & Hiff).
  { intros ->. simpl in Hlong. destruct Hsq as [Hlen _]. lia. }
  destruct b; [|done]. exfalso.
  destruct Hiff as [Hiff _]. destruct (Hiff eq_refl) as [Hcells _].
  apply cells_ok_legal in Hcells as (Hon & _).
  assert (Hpos : (0 < length w)%nat).
  { destruct Hsq as [Hlen _]. lia. }
  destruct (Hon 0%nat Hpos) as [Hr0 Hc0].
  destruct (Hon (length w - 1)%nat) as [Hr1 Hc1]; [lia|].
  unfold cell_row, cell_col in *.
  destruct Hd as [-> | ->]; simpl in *; lia.
Qed.

Lemma first_fit_all_rejected (w : word_t) (cands : list (Z * Z * Z)) (g : Grid) :
  (forall r c d, In (r, c, d) cands -> can_place w r c d g = (Ok false, g)) ->
  first_fit w cands g = Ok None.
Proof.
  induction cands as [|[[r c] d] rest IH]; intros Hrej; simpl; [done|].
  rewrite (Hrej r c d) by by left. simpl. apply IH.
  intros r' c' d' Hin. apply Hrej. by right.
Qed.

(** C9: a word longer than the grid is rejected by [can_place] at every
    position and in both directions; the crossing search returns [None] for
    it and the seeding step places nothing, the grid being left as it was. *)
Theorem too_long_never_placed (N : Z) (g : Grid) (w : word_t) :
  square N g -> N < Z.of_nat (length w) ->
  (forall row0 col0 d, valid_direction d ->
     can_place w row0 col0 d g = (Ok false, g)) /\
  (forall (c : string) (placed : list PlacedWord),
     try_place_word (mkWordEntry w c) placed g = (Ok None, g)) /\
  (forall (c : string) (size : Z),
     place_first size (mkWordEntry w c) g = (Ok [], g)).
Proof.
  intros Hsq Hlong. split_and!.
  - intros row0 col0 d Hd. by apply (too_long_rejected N).
  - intros c placed. rewrite try_place_word_search. unfold first_fit_search.
    rewrite first_fit_all_rejected; [done|]. simpl.
    intros r c' d Hin. apply (too_long_rejected N); [done..|].
    apply (crossings_valid w placed (r, c', d) Hin).
  - intros c size. pose proof (place_first_cases size (mkWordEntry w c) g) as Hcases.
    simpl in Hcases. rewrite (too_long_rejected N) in Hcases by (done || by left).
    done.
Qed.

Lemma too_long_never_placed_witness :
  (forall row0 col0 d, valid_direction d ->
     can_place ["A"; "B"; "C"]%char row0 col0 d (initialise_grid 2)
     = (Ok false, initialise_grid 2)) /\
  (forall (c : string) (placed : list PlacedWord),
     try_place_word (mkWordEntry ["A"; "B"; "C"]%char c) placed (initialise_grid 2)
     = (Ok None, initialise_grid 2)) /\
  (forall (c : string) (size : Z),
     place_first size (mkWordEntry ["A"; "B"; "C"]%char c) (initialise_grid 2)
     = (Ok [], initialise_grid 2)).
Proof.
  apply (too_long_never_placed 2 (initialise_grid 2) ["A"; "B"; "C"]%char).
  - split; [reflexivity | repeat constructor].
  - simpl. lia.
Defined.

(** ** Nothing is placed without a seed *)

Lemma place_remaining_unseeded (selected : list WordEntry) (g : Grid) :
  place_remaining selected [] g = (Ok [], g).
Proof. induction selected as [|e rest IH]; [done | apply IH]. Qed.

(** C10: with no placed word, [try_place_word] returns [None] and leaves
    the grid as it was; hence, when the seed word is rejected,
    [generate_crossword] returns the empty grid and no placed word. *)
Theorem unseeded_places_nothing :
  (forall (e : WordEntry) (g : Grid), try_place_word e [] g = (Ok None, g)) /\
  (forall (shuffle : list WordEntry -> list WordEntry) (entries : list WordEntry)
          (size max_words : Z) (first : WordEntry) (rest : list WordEntry),
     sort_by_length (select_words shuffle entries max_words) = first :: rest ->
     fst (can_place (word first) (size / 2)
            (Z.max 0 ((size - Z.of_nat (length (word first))) / 2)) 0
            (initialise_grid size)) = Ok false ->
     generate_crossword shuffle entries size max_words
     = Ok (initialise_grid size, [])).
Proof.
  split; [done|].
  intros shuffle entries size max_words first rest Hsorted Hno.
  unfold generate_crossword. rewrite Hsorted. simpl.
  pose proof (place_first_cases size first (initialise_grid size)) as Hcases.
  simpl in Hcases. rewrite Hno in Hcases.
  rewrite (bind_ok _ _ _ _ _ Hcases). by rewrite place_remaining_unseeded.
Qed.

Lemma unseeded_places_nothing_witness :
  generate_crossword (fun l => l)
    [mkWordEntry ["A"; "B"; "C"]%char "first"; mkWordEntry ["A"; "B"]%char "second"]
    2 10
  = Ok (initialise_grid 2, []).
Proof.
  apply (proj2 unseeded_places_nothing (fun l => l) _ 2 10
           (mkWordEntry ["A"; "B"; "C"]%char "first")
           [mkWordEntry ["A"; "B"]%char "second"]).
  - reflexivity.
  - reflexivity.
Defined.

(** ** The empty grid and the seed *)

Lemma square_initialise_grid (size : Z) :
  square (Z.max 0 size) (initialise_grid size).
Proof.
  unfold square, initialise_grid. split.
  - rewrite length_replicate. lia.
  - apply Forall_replicate. rewrite length_replicate. lia.
Qed.

Lemma lookup_cell_initialise_grid (size r c : Z) (x : cell) :
  lookup_cell (initialise_grid size) r c = Some x -> x = None.
Proof.
  intros (_ & _ & line & Hline & Hx)%lookup_cell_Some.
  apply lookup_replicate in Hline as [-> _].
  by apply lookup_replicate in Hx as [-> _].
Qed.

Lemma occupied_initialise_grid (size r c : Z) :
  occupied (initialise_grid size) r c = false.
Proof.
  unfold occupied. destruct (lookup_cell _ r c) as [[a|]|] eqn:E; [|done..].
  by apply lookup_cell_initialise_grid in E.
Qed.

Lemma seed_accepted_iff (N : Z) (w : word_t) :
  1 <= N -> w <> [] ->
  can_place w (N / 2) (Z.max 0 ((N - Z.of_nat (length w)) / 2)) 0 (initialise_grid N)
  = (Ok (Z.of_nat (length w) <=? N), initialise_grid N).
Proof.
  intros HN Hne.
  pose proof (square_initialise_grid N) as Hsq. rewrite Z.max_r in Hsq by lia.
  destruct (can_place_run N _ Hsq w (N / 2)
              (Z.max 0 ((N - Z.of_nat (length w)) / 2)) 0 Hne) as (b & Hrun & Hiff).
  rewrite Hrun. do 2 f_equal.
  assert (Hlen : (0 < length w)%nat) by (destruct w; [done | simpl; lia]).
  destruct (Z.leb_spec (Z.of_nat (length w)) N) as [Hfit|Hlong].
  - apply Hiff. split.
    + apply cells_ok_legal. split_and!.
      * intros i Hi. unfold on_grid, cell_row, cell_col. simpl.
        Z.to_euclidean_division_equations. lia.
      * intros i ch x _ Hx. by apply lookup_cell_initialise_grid in Hx.
      * intros i _ _. unfold sides_clear. simpl.
        by rewrite !occupied_initialise_grid.
    + unfold ends_clear. simpl. by rewrite !occupied_initialise_grid.
  - destruct b; [|done]. exfalso.
    destruct Hiff as [Hiff _]. destruct (Hiff eq_refl) as [Hcells _].
    apply cells_ok_legal in Hcells as (Hon & _).
    destruct (Hon (length w - 1)%nat) as [_ Hc]; [lia|].
    unfold cell_col in Hc. simpl in Hc.
    Z.to_euclidean_division_equations. lia.
Qed.

(** The ordering policy puts a longest word first. *)
Lemma Forall_insert_by_length (P : WordEntry -> Prop) (e : WordEntry)
    (l : list WordEntry) :
  P e -> Forall P l -> Forall P (insert_by_length e l).
Proof.
  intros He. induction 1 as [|x rest Hx Hrest IH]; simpl; [by constructor|].
  destruct (_ <? _)%nat; repeat constructor; auto.
Qed.

Lemma insert_by_length_sorted (e : WordEntry) (l : list WordEntry) :
  StronglySorted (fun a b => length (word b) <= length (word a))%nat l ->
  StronglySorted (fun a b => length (word b) <= length (word a))%nat
    (insert_by_length e l).
Proof.
  induction 1 as [|x rest Hsorted IH Hx]; simpl; [repeat constructor|].
  destruct (Nat.ltb_spec (length (word e)) (length (word x))).
  - constructor; [done|]. apply Forall_insert_by_length; [lia | done].
  - constructor; [by constructor|]. constructor; [lia|].
    eapply Forall_impl; [exact Hx|]. simpl. intros y Hy. lia.
Qed.

Lemma sort_by_length_sorted (l : list WordEntry) :
  StronglySorted (fun a b => length (word b) <= length (word a))%nat
    (sort_by_length l).
Proof.
  induction l as [|e rest IH]; simpl; [constructor|].
  by apply insert_by_length_sorted.
Qed.

(** C4: the first word of the sorted candidate list, which is a longest
    one, is tried horizontally at row [N // 2], column
    [max(0, (N - L) // 2)]; on the empty grid, with [N >= 1] and [L >= 1],
    [can_place] accepts this placement exactly when [L <= N]; when it is
    rejected nothing is placed, no other position being tried. *)
Theorem seed_placement
    (shuffle : list WordEntry -> list WordEntry) (entries : list WordEntry)
    (N max_words : Z) (first : WordEntry) (rest : list WordEntry) :
  sort_by_length (select_words shuffle entries max_words) = first :: rest ->
  1 <= N -> (1 <= length (word first))%nat ->
  let L := Z.of_nat (length (word first)) in
  let r := N / 2 in
  let c := Z.max 0 ((N - L) / 2) in
  Forall (fun e => length (word e) <= length (word first))%nat rest /\
  can_place (word first) r c 0 (initialise_grid N)
    = (Ok (L <=? N), initialise_grid N) /\
  generate_crossword shuffle entries N max_words =
    if L <=? N then
      match (place_word (word first) r c 0 ;;
             place_remaining rest [mkPlacedWord first r c 0]) (initialise_grid N) with
      | (Ok placed_words, g) => Ok (g, placed_words)
      | (IndexError, _) => IndexError
      end
    else Ok (initialise_grid N, []).
Proof.
  intros Hsorted HN HL L r c.
  assert (Hne : word first <> []) by (destruct (word first); [simpl in HL; lia | done]).
  pose proof (seed_accepted_iff N (word first) HN Hne) as Hcan. fold L r c in Hcan.
  split_and!.
  - pose proof (sort_by_length_sorted (select_words shuffle entries max_words)) as Hs.
    rewrite Hsorted in Hs. by apply StronglySorted_inv in Hs as [_ Hs].
  - done.
  - unfold generate_crossword. rewrite Hsorted. simpl.
    pose proof (place_first_cases N first (initialise_grid N)) as Hcases.
    simpl in Hcases. fold L r c in Hcases. rewrite Hcan in Hcases. simpl in Hcases.
    destruct (L <=? N).
    + destruct Hcases as (g' & Hwritten & Hseed).
      rewrite (bind_ok _ _ _ _ _ Hseed). by rewrite (bind_ok _ _ _ _ _ Hwritten).
    + rewrite (bind_ok _ _ _ _ _ Hcases). by rewrite place_remaining_unseeded.
Qed.

Lemma seed_placement_witness :
  Forall (fun e => length (word e) <= 3)%nat [mkWordEntry ["A"; "B"]%char "second"] /\
  can_place ["A"; "B"; "C"]%char 2 1 0 (initialise_grid 5)
    = (Ok true, initialise_grid 5) /\
  generate_crossword (fun l => l)
    [mkWordEntry ["A"; "B"]%char "second"; mkWordEntry ["A"; "B"; "C"]%char "first"]
    5 10 =
    match (place_word ["A"; "B"; "C"]%char 2 1 0 ;;
           place_remaining [mkWordEntry ["A"; "B"]%char "second"]
             [mkPlacedWord (mkWordEntry ["A"; "B"; "C"]%char "first") 2 1 0])
          (initialise_grid 5) with
    | (Ok placed_words, g) => Ok (g, placed_words)
    | (IndexError, _) => IndexError
    end.
Proof.
  apply (seed_placement (fun l => l)
           [mkWordEntry ["A"; "B"]%char "second"; mkWordEntry ["A"; "B"; "C"]%char "first"]
           5 10 (mkWordEntry ["A"; "B"; "C"]%char "first")
           [mkWordEntry ["A"; "B"]%char "second"]).
  - reflexivity.
  - lia.
  - simpl. lia.
Defined.

(** ** The generation invariant *)

Lemma can_place_empty_seed (size : Z) :
  can_place [] (size / 2) (Z.max 0 ((size - 0) / 2)) 0 (initialise_grid size)
  = (Ok true, initialise_grid size).
Proof.
  pose proof (square_initialise_grid size) as Hsq.
  set (g := initialise_grid size) in *. set (N := Z.max 0 size) in *.
  unfold can_place.
  assert (Hlen : grid_len g = (Ok N, g)).
  { unfold grid_len. by destruct Hsq as [-> _]. }
  rewrite (bind_ok _ _ _ _ _ Hlen). simpl.
  rewrite (bind_ok _ _ g g true) by done.
  rewrite (bind_ok _ _ g g false); [done|].
  unfold ends_blocked. simpl.
  rewrite (bind_ok _ _ g g false).
  - rewrite (guarded_letter_occupied N g Hsq); [unfold g; by rewrite occupied_initialise_grid|].
    unfold on_grid, N. rewrite Z.ltb_lt.
    Z.to_euclidean_division_equations. lia.
  - rewrite (guarded_letter_occupied N g Hsq); [unfold g; by rewrite occupied_initialise_grid|].
    unfold on_grid, N. rewrite Z.gtb_ltb, Z.ltb_lt.
    Z.to_euclidean_division_equations. lia.
Qed.

Lemma covers_extend (g g' : Grid) (p : PlacedWord) :
  (forall r c x, lookup_cell g r c = Some (Some x) ->
                 lookup_cell g' r c = Some (Some x)) ->
  covers g p -> covers g' p.
Proof. intros Hext Hcov k ch Hk. by apply Hext, Hcov. Qed.

Lemma place_first_initial (size : Z) (first : WordEntry) :
  exists placed g,
    place_first size first (initialise_grid size) = (Ok placed, g) /\
    square (Z.max 0 size) g /\ Forall (covers g) placed.
Proof.
  pose proof (square_initialise_grid size) as Hsq.
  pose proof (place_first_cases size first (initialise_grid size)) as Hcases.
  simpl in Hcases.
  destruct (fst (can_place (word first) _ _ 0 (initialise_grid size)))
    as [[]|] eqn:Hyes.
  - destruct Hcases as (g' & Hwritten & Hseed).
    destruct (place_word_run (word first) _ _ 0 _ (or_introl eq_refl) Hyes)
      as (g'' & Hrun & Hcov & _ & Hsq').
    rewrite Hwritten in Hrun. injection Hrun as <-.
    eexists _, g'. split; [exact Hseed|]. split; [by apply Hsq'|].
    constructor; [|constructor]. intros k ch Hk. by apply Hcov.
  - eexists _, _. split; [exact Hcases|]. by split.
  - exfalso. destruct (word first) as [|a l] eqn:Hw.
    + simpl in Hyes. by rewrite can_place_empty_seed in Hyes.
    + destruct (can_place_run _ _ Hsq (a :: l) (size / 2)
                  (Z.max 0 ((size - Z.of_nat (length (a :: l))) / 2)) 0)
        as (b & Hrun & _); [done|].
      by rewrite Hrun in Hyes.
Qed.

Lemma place_remaining_consistent (N : Z) (selected : list WordEntry) :
  forall (placed : list PlacedWord) (g : Grid),
    square N g -> Forall (covers g) placed ->
    exists placed' g',
      place_remaining selected placed g = (Ok placed', g') /\
      square N g' /\ Forall (covers g') placed'.
Proof.
  induction selected as [|e rest IH]; intros placed g Hsq Hcov.
  - by exists placed, g.
  - destruct (try_place_word_step N g e placed Hsq)
      as (found & g1 & Hrun & Hsq1 & Hext & Hfound).
    simpl. rewrite (bind_ok _ _ _ _ _ Hrun). destruct found as [p|].
    + apply IH; [done|]. apply Forall_app. split.
      * eapply Forall_impl; [exact Hcov|]. intros q. by apply covers_extend.
      * by constructor.
    + subst g1. by apply IH.
Qed.

Lemma place_remaining_app (l1 l2 : list WordEntry) :
  forall (placed : list PlacedWord) (g : Grid),
    place_remaining (l1 ++ l2) placed g
    = bind (place_remaining l1 placed) (place_remaining l2) g.
Proof.
  induction l1 as [|e rest IH]; intros placed g; [done|].
  simpl. rewrite bind_assoc. apply bind_ext. intros [p|] g1; apply IH.
Qed.

(** C3: take the state reached after the seeding step and the first [k]
    crossing attempts (generation goes on from it with the remaining
    candidates).  In that state every placed word reads back from the grid,
    from its anchor along its direction, and any two placed words have the
    same letter at a cell they share. *)
Theorem placed_words_read_back (size : Z) (first : WordEntry)
    (rest : list WordEntry) (k : nat) :
  exists (placed : list PlacedWord) (g : Grid),
    layout size (first :: take k rest) (initialise_grid size) = (Ok placed, g) /\
    layout size (first :: rest) (initialise_grid size)
      = place_remaining (drop k rest) placed g /\
    Forall (reads_back g) placed /\
    agree_on_shared placed.
Proof.
  destruct (place_first_initial size first) as (placed1 & g1 & Hseed & Hsq1 & Hcov1).
  destruct (place_remaining_consistent _ (take k rest) placed1 g1 Hsq1 Hcov1)
    as (placed & g & Hrun & Hsq & Hcov).
  exists placed, g. split_and!.
  - simpl. by rewrite (bind_ok _ _ _ _ _ Hseed).
  - simpl. rewrite (bind_ok _ _ _ _ _ Hseed).
    rewrite <- (take_drop k rest) at 1. rewrite place_remaining_app.
    by rewrite (bind_ok _ _ _ _ _ Hrun).
  - eapply Forall_impl; [exact Hcov|]. apply covers_reads_back.
  - by apply (covers_agree g).
Qed.

(** ** Numbering *)

Lemma nth_numbered_snoc (cells : list (Z * Z)) (rc : Z * Z) (n : Z) :
  nth_numbered (cells ++ [rc]) n =
  if decide (n = 1 + Z.of_nat (length cells)) then Some rc else nth_numbered cells n.
Proof.
  unfold nth_numbered. case_decide as Hn; [|by rewrite decide_False by lia].
  case_decide as Hlast.
  - subst n. replace (Z.to_nat _) with (length cells + 0)%nat by lia.
    by rewrite lookup_app_r, Nat.add_comm, Nat.add_sub by lia.
  - destruct (decide (Z.to_nat (n - 1) < length cells)%nat).
    + by rewrite lookup_app_l.
    + rewrite !lookup_ge_None_2; [done | lia |]. rewrite length_app. simpl. lia.
Qed.

Lemma nth_numbered_next (cells : list (Z * Z)) :
  nth_numbered cells (1 + Z.of_nat (length cells)) = None.
Proof.
  unfold nth_numbered. rewrite decide_True by lia. apply lookup_ge_None_2. lia.
Qed.

Lemma clue_at_bind (g : Grid) (placed : list PlacedWord)
    (start : Grid -> Z -> Z -> bool) (d r c : Z) (m : gmap Z string)
    (cells : list (Z * Z)) (n : Z) :
  (forall k, m !! k = clue_at g placed start d (nth_numbered cells k)) ->
  (if start g r c
   then bind_clue (1 + Z.of_nat (length cells)) (first_clue d r c placed) m
   else m) !! n
  = clue_at g placed start d (nth_numbered (cells ++ [(r, c)]) n).
Proof.
  intros Hm. rewrite nth_numbered_snoc. case_decide as Hn.
  - subst n. simpl. destruct (start g r c).
    + unfold bind_clue. destruct (first_clue d r c placed) as [s|].
      * apply lookup_insert_eq.
      * by rewrite Hm, nth_numbered_next.
    + by rewrite Hm, nth_numbered_next.
  - destruct (start g r c); [|apply Hm].
    unfold bind_clue. destruct (first_clue d r c placed) as [s|]; [|apply Hm].
    rewrite lookup_insert_ne by done. apply Hm.
Qed.

Section Numbering.

Variable N : Z.
Variable g : Grid.
Hypothesis Hsq : square N g.
Variable placed : list PlacedWord.

Lemma edge_or_empty_run (first r c : Z) :
  ((first =? 0) = false <-> on_grid N r c) ->
  edge_or_empty first r c g = (Ok (negb (occupied g r c)), g).
Proof.
  intros Hedge. unfold edge_or_empty. destruct (first =? 0).
  - rewrite (occupied_off_grid N); [done | done |].
    intros Hon. by apply Hedge in Hon.
  - destruct (grid_get_on_grid N g Hsq r c) as (x & Hx & Hrun); [by apply Hedge|].
    rewrite (bind_ok _ _ _ _ _ Hrun). unfold occupied. rewrite Hx. by destruct x.
Qed.

Lemma number_cell_run (r c : Z) (st : Numbering) (cells : list (Z * Z)) :
  on_grid N r c ->
  represents g placed st cells ->
  exists st',
    number_cell N placed r c st g = (Ok st', g) /\
    represents g placed st' (cells ++ List.filter (starts_entry g) [(r, c)]).
Proof.
  intros Hon (Hnum & Hnumbers & Hacross & Hdown). unfold number_cell.
  destruct (grid_get_on_grid N g Hsq r c Hon) as (x & Hx & Hrun).
  rewrite (bind_ok _ _ _ _ _ Hrun).
  assert (Hocc : occupied g r c = is_letter x).
  { unfold occupied. rewrite Hx. by destruct x. }
  unfold List.filter, starts_entry, across_start, down_start. simpl. rewrite Hocc.
  destruct x as [a|]; simpl.
  2:{ exists st. split; [done|]. by rewrite app_nil_r. }
  destruct Hon as [Hr Hc].
  rewrite (bind_ok _ _ g g (negb (occupied g r (c - 1)))).
  2:{ apply edge_or_empty_run. unfold on_grid. rewrite Z.eqb_neq. lia. }
  rewrite (bind_ok _ _ g g (negb (occupied g r (c - 1)) && occupied g r (c + 1))).
  2:{ destruct (negb (occupied g r (c - 1))); [|done]. simpl.
      apply (guarded_letter_occupied N g Hsq). unfold on_grid. rewrite Z.ltb_lt. lia. }
  rewrite (bind_ok _ _ g g (negb (occupied g (r - 1) c))).
  2:{ apply edge_or_empty_run. unfold on_grid. rewrite Z.eqb_neq. lia. }
  rewrite (bind_ok _ _ g g (negb (occupied g (r - 1) c) && occupied g (r + 1) c)).
  2:{ destruct (negb (occupied g (r - 1) c)); [|done]. simpl.
      apply (guarded_letter_occupied N g Hsq). unfold on_grid. rewrite Z.ltb_lt. lia. }
  assert (Ha : across_start g r c
               = negb (occupied g r (c - 1)) && occupied g r (c + 1)).
  { unfold across_start. by rewrite Hocc. }
  assert (Hd : down_start g r c
               = negb (occupied g (r - 1) c) && occupied g (r + 1) c).
  { unfold down_start. by rewrite Hocc. }
  rewrite <- Ha, <- Hd.
  destruct (across_start g r c || down_start g r c) eqn:Hstart.
  2:{ exists st. split; [done|]. by rewrite app_nil_r. }
  eexists. split; [reflexivity|]. rewrite Hnum. split_and!; simpl.
  - rewrite length_app. simpl. lia.
  - intros n. rewrite nth_numbered_snoc, lookup_insert.
    repeat case_decide; done || lia.
  - intros n. by apply clue_at_bind.
  - intros n. by apply clue_at_bind.
Qed.

Lemma number_row_run (r : Z) (cs : list Z) :
  0 <= r < N -> Forall (fun c => 0 <= c < N) cs ->
  forall (st : Numbering) (cells : list (Z * Z)),
    represents g placed st cells ->
    exists st',
      for_each cs (number_cell N placed r) st g = (Ok st', g) /\
      represents g placed st'
        (cells ++ List.filter (starts_entry g) (map (pair r) cs)).
Proof.
  intros Hr. induction 1 as [|c cs Hc Hcs IH]; intros st cells Hrep.
  - exists st. split; [done|]. by rewrite app_nil_r.
  - destruct (number_cell_run r c st cells) as (st1 & Hrun & Hrep1); [done..|].
    destruct (IH st1 _ Hrep1) as (st' & Hrun' & Hrep').
    exists st'. split.
    + simpl. by rewrite (bind_ok _ _ _ _ _ Hrun).
    + change (map (pair r) (c :: cs)) with ([(r, c)] ++ map (pair r) cs).
      rewrite List.filter_app, app_assoc. exact Hrep'.
Qed.

Lemma number_rows_run (rs cs : list Z) :
  Forall (fun r => 0 <= r < N) rs -> Forall (fun c => 0 <= c < N) cs ->
  forall (st : Numbering) (cells : list (Z * Z)),
    represents g placed st cells ->
    exists st',
      for_each rs (fun r => for_each cs (number_cell N placed r)) st g
        = (Ok st', g) /\
      represents g placed st'
        (cells ++ List.filter (starts_entry g)
                    (flat_map (fun r => map (pair r) cs) rs)).
Proof.
  intros Hrs Hcs. induction Hrs as [|r rs Hr Hrs IH]; intros st cells Hrep.
  - exists st. split; [done|]. by rewrite app_nil_r.
  - destruct (number_row_run r cs Hr Hcs st cells Hrep) as (st1 & Hrun & Hrep1).
    destruct (IH st1 _ Hrep1) as (st' & Hrun' & Hrep').
    exists st'. split.
    + simpl. by rewrite (bind_ok _ _ _ _ _ Hrun).
    + simpl. rewrite List.filter_app, app_assoc. exact Hrep'.
Qed.

Lemma range_bounds : Forall (fun x => 0 <= x < N) (range N).
Proof.
  apply Forall_forall. intros x [i Hi]%list_elem_of_lookup.
  apply lookup_seqZ in Hi. lia.
Qed.

(** [number_grid] on a square grid: it returns, leaves the grid alone, and
    its maps number the cells of [numbered_cells] from 1 in scan order. *)
Lemma number_grid_run :
  exists st,
    number_grid placed g = (Ok st, g) /\
    represents g placed st (numbered_cells N g).
Proof.
  unfold number_grid.
  assert (Hlen : grid_len g = (Ok N, g)).
  { unfold grid_len. by destruct Hsq as [-> _]. }
  rewrite (bind_ok _ _ _ _ _ Hlen).
  apply (number_rows_run (range N) (range N) range_bounds range_bounds _ []).
  unfold represents, nth_numbered, clue_at. simpl. split_and!; [done | ..];
    intros n; rewrite lookup_empty; by case_decide.
Qed.

End Numbering.

(** ** The scan order *)

Lemma StronglySorted_lookup_lt {A : Type} (R : A -> A -> Prop) (l : list A) :
  StronglySorted R l ->
  forall (i j : nat) (x y : A),
    (i < j)%nat -> l !! i = Some x -> l !! j = Some y -> R x y.
Proof.
  induction 1 as [|a l Hsorted IH Ha]; intros i j x y Hij Hx Hy; [done|].
  destruct j as [|j]; [lia|]. simpl in Hy. destruct i as [|i].
  - injection Hx as <-. rewrite Forall_forall in Ha. apply Ha.
    apply list_elem_of_lookup. eauto.
  - simpl in Hx. apply (IH i j); [lia | done..].
Qed.

Lemma seqZ_sorted (k : nat) :
  forall m n : Z, Z.to_nat n = k -> StronglySorted Z.lt (seqZ m n).
Proof.
  induction k as [|k IH]; intros m n Hn.
  - rewrite seqZ_nil by lia. constructor.
  - rewrite seqZ_cons by lia. constructor; [apply IH; lia|].
    apply Forall_forall. intros x [i Hi]%list_elem_of_lookup.
    apply lookup_seqZ in Hi. lia.
Qed.

Lemma filter_sorted {A : Type} (R : A -> A -> Prop) (f : A -> bool) (l : list A) :
  StronglySorted R l -> StronglySorted R (List.filter f l).
Proof.
  induction 1 as [|a l Hsorted IH Ha]; simpl; [constructor|].
  destruct (f a); [|done]. constructor; [done|].
  apply Forall_forall. intros x Hx%list_elem_of_In%filter_In.
  rewrite Forall_forall in Ha. apply Ha, list_elem_of_In. tauto.
Qed.

Lemma rows_sorted (rs cs : list Z) :
  StronglySorted Z.lt rs -> StronglySorted Z.lt cs ->
  StronglySorted row_major_lt (flat_map (fun r => map (pair r) cs) rs).
Proof.
  intros Hrs Hcs. induction Hrs as [|r rs Hrs IH Hr]; simpl; [constructor|].
  apply StronglySorted_app_2; [| |done].
  - intros [r1 c1] [r2 c2]
      (c1' & [= <- <-] & _)%list_elem_of_In%in_map_iff
      (r2' & Hr2 & (c2' & [= <- <-] & _)%in_map_iff)%list_elem_of_In%in_flat_map.
    left. simpl. rewrite Forall_forall in Hr. by apply Hr, list_elem_of_In.
  - clear IH. induction Hcs as [|c cs Hcs IH Hc]; simpl; constructor; [done|].
    apply Forall_forall.
    intros [r' c'] (c'' & [= <- <-] & Hin)%list_elem_of_In%in_map_iff.
    right. simpl. split; [done|].
    rewrite Forall_forall in Hc. by apply Hc, list_elem_of_In.
Qed.

Lemma numbered_cells_sorted (N : Z) (g : Grid) :
  StronglySorted row_major_lt (numbered_cells N g).
Proof.
  apply filter_sorted, rows_sorted; by apply (seqZ_sorted (Z.to_nat N)).
Qed.

Lemma in_range (N x : Z) : In x (range N) <-> 0 <= x < N.
Proof.
  rewrite <- list_elem_of_In, list_elem_of_lookup. unfold range. split.
  - intros [i Hi]. apply lookup_seqZ in Hi. lia.
  - intros Hx. exists (Z.to_nat x). apply lookup_seqZ. lia.
Qed.

Lemma in_numbered_cells (N : Z) (g : Grid) (r c : Z) :
  In (r, c) (numbered_cells N g) <->
  on_grid N r c /\ starts_entry g (r, c) = true.
Proof.
  unfold numbered_cells, scan, on_grid. split.
  - intros [Hin Hs]%filter_In.
    apply in_flat_map in Hin as (r' & Hr & Hin).
    apply in_map_iff in Hin as (c' & [= <- <-] & Hc).
    apply in_range in Hr, Hc. done.
  - intros [[Hr Hc] Hs]. apply filter_In. split; [|done].
    apply in_flat_map. exists r. split; [by apply in_range|].
    apply in_map_iff. exists c. split; [done | by apply in_range].
Qed.

Lemma nth_numbered_elem (cells : list (Z * Z)) (rc : Z * Z) :
  (exists n, nth_numbered cells n = Some rc) <-> In rc cells.
Proof.
  rewrite <- list_elem_of_In, list_elem_of_lookup. unfold nth_numbered. split.
  - intros [n Hn]. case_decide; [eauto | done].
  - intros [i Hi]. exists (1 + Z.of_nat i). rewrite decide_True by lia.
    by replace (Z.to_nat (1 + Z.of_nat i - 1)) with i by lia.
Qed.

Lemma nth_numbered_is_Some (cells : list (Z * Z)) (n : Z) :
  is_Some (nth_numbered cells n) <-> 1 <= n <= Z.of_nat (length cells).
Proof.
  unfold nth_numbered. case_decide.
  - rewrite lookup_lt_is_Some. lia.
  - split; [by intros [? ?] | lia].
Qed.

Lemma nth_numbered_increasing (cells : list (Z * Z)) (n m : Z) (p q : Z * Z) :
  StronglySorted row_major_lt cells ->
  nth_numbered cells n = Some p -> nth_numbered cells m = Some q ->
  n < m -> row_major_lt p q.
Proof.
  unfold nth_numbered. intros Hsorted Hp Hq Hnm.
  repeat case_decide; try done.
  apply (StronglySorted_lookup_lt _ _ Hsorted (Z.to_nat (n - 1)) (Z.to_nat (m - 1)));
    [lia | done..].
Qed.

Lemma row_major_lt_irrefl (p : Z * Z) : ~ row_major_lt p p.
Proof. unfold row_major_lt. lia. Qed.

Lemma anchored_spec (d r c : Z) (p : PlacedWord) :
  anchored d r c p = true <-> direction p = d /\ row p = r /\ col p = c.
Proof. unfold anchored. rewrite !andb_true_iff, !Z.eqb_eq. tauto. Qed.

(** The lookup loop of [number_grid] finds the first word, in placement
    order, with the direction and the anchor asked for. *)
Lemma find_first_anchored (d r c : Z) (placed : list PlacedWord) (p : PlacedWord) :
  List.find (anchored d r c) placed = Some p <-> first_anchored d r c placed p.
Proof.
  unfold first_anchored. induction placed as [|x rest IH]; simpl.
  - split; [done | by intros (i & Hi & _)].
  - destruct (anchored d r c x) eqn:Hx.
    + apply anchored_spec in Hx. split.
      * intros [= <-]. exists 0%nat. split; [done|].
        split_and!; try tauto. intros j q Hj. lia.
      * intros (i & Hi & _ & _ & _ & Hfirst). destruct i as [|i]; [done|].
        by destruct (Hfirst 0%nat x ltac:(lia) eq_refl).
    + assert (Hnot : ~ (direction x = d /\ row x = r /\ col x = c)).
      { rewrite <- anchored_spec. congruence. }
      rewrite IH. split.
      * intros (i & Hi & Hd & Hr & Hc & Hfirst). exists (S i).
        split_and!; try done. intros [|j] q Hj Hq.
        -- by injection Hq as <-.
        -- apply (Hfirst j q); [lia | done].
      * intros (i & Hi & Hd & Hr & Hc & Hfirst). destruct i as [|i].
        -- injection Hi as ->. tauto.
        -- exists i. split_and!; try done. intros j q Hj Hq.
           apply (Hfirst (S j) q); [lia | done].
Qed.

Lemma first_clue_spec (d r c : Z) (placed : list PlacedWord) (s : string) :
  first_clue d r c placed = Some s <->
  exists p, first_anchored d r c placed p /\ clue (entry p) = s.
Proof.
  unfold first_clue. setoid_rewrite <- find_first_anchored.
  destruct (List.find (anchored d r c) placed) as [p|]; split.
  - intros [= <-]. eauto.
  - by intros (p' & [= <-] & <-).
  - done.
  - by intros (p' & [=] & _).
Qed.

(** C5: on a square grid, scanned row by row and column by column,
    [number_grid] gives a number to a cell exactly when the cell holds a
    letter and (a) has no letter on its left (off the grid or empty) and a
    letter on its right, or (b) has no letter above and a letter below;
    numbers follow the scan order.  For a numbered cell, the across map
    binds its number to a clue exactly when the cell is an across start and
    some placed word is horizontal and anchored at the cell, and the clue is
    then that of the first such word in placement order; the down map does
    the same with the down starts and the vertical placed words.  A number
    that is not given binds no clue. *)
Theorem number_grid_starts (N : Z) (g : Grid) (placed : list PlacedWord) :
  square N g ->
  exists st,
    number_grid placed g = (Ok st, g) /\
    (forall r c,
       (exists n, numbers st !! n = Some (r, c)) <->
       on_grid N r c /\ occupied g r c = true /\
       ((occupied g r (c - 1) = false /\ occupied g r (c + 1) = true) \/
        (occupied g (r - 1) c = false /\ occupied g (r + 1) c = true))) /\
    (forall n m p q,
       numbers st !! n = Some p -> numbers st !! m = Some q -> n < m ->
       row_major_lt p q) /\
    (forall n r c s,
       numbers st !! n = Some (r, c) ->
       (across st !! n = Some s <->
          (occupied g r (c - 1) = false /\ occupied g r (c + 1) = true) /\
          exists p, first_anchored 0 r c placed p /\ clue (entry p) = s) /\
       (down st !! n = Some s <->
          (occupied g (r - 1) c = false /\ occupied g (r + 1) c = true) /\
          exists p, first_anchored 1 r c placed p /\ clue (entry p) = s)) /\
    (forall n,
       numbers st !! n = None -> across st !! n = None /\ down st !! n = None).
Proof.
  intros Hsq.
  destruct (number_grid_run N g Hsq placed) as (st & Hrun & _ & Hnum & Hacross & Hdown).
  assert (Hiff : forall r c,
            (exists n, numbers st !! n = Some (r, c)) <->
            on_grid N r c /\ occupied g r c = true /\
            ((occupied g r (c - 1) = false /\ occupied g r (c + 1) = true) \/
             (occupied g (r - 1) c = false /\ occupied g (r + 1) c = true))).
  { intros r c. setoid_rewrite Hnum.
    rewrite nth_numbered_elem, in_numbered_cells.
    unfold starts_entry, across_start, down_start. simpl.
    destruct (occupied g r c), (occupied g r (c - 1)), (occupied g r (c + 1)),
      (occupied g (r - 1) c), (occupied g (r + 1) c); simpl; intuition congruence. }
  exists st. split; [done|]. split_and!.
  - exact Hiff.
  - intros n m p q. rewrite !Hnum.
    apply nth_numbered_increasing, numbered_cells_sorted.
  - intros n r c s Hn.
    assert (Hocc : occupied g r c = true).
    { apply (proj1 (Hiff r c)). eauto. }
    rewrite Hacross, Hdown, <- Hnum, Hn. simpl.
    rewrite <- !first_clue_spec. unfold across_start, down_start. rewrite Hocc.
    destruct (occupied g r (c - 1)), (occupied g r (c + 1)),
      (occupied g (r - 1) c), (occupied g (r + 1) c); simpl;
      intuition congruence.
  - intros n Hn. rewrite Hacross, Hdown, <- Hnum, Hn. done.
Qed.

Lemma number_grid_starts_witness :
  let g := [[Some "A"; Some "B"]; [None; None]]%char in
  let placed := [mkPlacedWord (mkWordEntry ["A"; "B"]%char "first letters") 0 0 0] in
  exists st,
    number_grid placed g = (Ok st, g) /\
    (forall r c,
       (exists n, numbers st !! n = Some (r, c)) <->
       on_grid 2 r c /\ occupied g r c = true /\
       ((occupied g r (c - 1) = false /\ occupied g r (c + 1) = true) \/
        (occupied g (r - 1) c = false /\ occupied g (r + 1) c = true))) /\
    (forall n m p q,
       numbers st !! n = Some p -> numbers st !! m = Some q -> n < m ->
       row_major_lt p q) /\
    (forall n r c s,
       numbers st !! n = Some (r, c) ->
       (across st !! n = Some s <->
          (occupied g r (c - 1) = false /\ occupied g r (c + 1) = true) /\
          exists p, first_anchored 0 r c placed p /\ clue (entry p) = s) /\
       (down st !! n = Some s <->
          (occupied g (r - 1) c = false /\ occupied g (r + 1) c = true) /\
          exists p, first_anchored 1 r c placed p /\ clue (entry p) = s)) /\
    (forall n,
       numbers st !! n = None -> across st !! n = None /\ down st !! n = None).
Proof.
  apply (number_grid_starts 2).
  split; [reflexivity | repeat constructor].
Defined.

(** C8: on a square grid, the keys of the numbers map are exactly
    1, ..., k, where k is the number of cells that start an across or a down
    answer (one number per such cell, also when both start there); the
    counter ends at k + 1; the cell numbered n is the n-th such cell of the
    scan, so the coordinates of successive numbers increase strictly in
    row-major order and no coordinate is numbered twice. *)
Theorem numbering_sequential (N : Z) (g : Grid) (placed : list PlacedWord) :
  square N g ->
  exists st,
    number_grid placed g = (Ok st, g) /\
    num st = 1 + Z.of_nat (length (numbered_cells N g)) /\
    (forall n, is_Some (numbers st !! n)
               <-> 1 <= n <= Z.of_nat (length (numbered_cells N g))) /\
    (forall n, numbers st !! n = nth_numbered (numbered_cells N g) n) /\
    (forall n m p q,
       numbers st !! n = Some p -> numbers st !! m = Some q -> n < m ->
       row_major_lt p q) /\
    (forall n m p,
       numbers st !! n = Some p -> numbers st !! m = Some p -> n = m).
Proof.
  intros Hsq.
  destruct (number_grid_run N g Hsq placed) as (st & Hrun & Hcount & Hnum & _).
  assert (Hinc : forall n m p q,
            numbers st !! n = Some p -> numbers st !! m = Some q -> n < m ->
            row_major_lt p q).
  { intros n m p q. rewrite !Hnum.
    apply nth_numbered_increasing, numbered_cells_sorted. }
  exists st. split_and!; [done | done | | done | done |].
  - intros n. rewrite Hnum. apply nth_numbered_is_Some.
  - intros n m p Hn Hm.
    destruct (Z.lt_trichotomy n m) as [Hlt | [Heq | Hgt]]; [|done|].
    + by destruct (row_major_lt_irrefl p (Hinc n m p p Hn Hm Hlt)).
    + by destruct (row_major_lt_irrefl p (Hinc m n p p Hm Hn Hgt)).
Qed.

Lemma numbering_sequential_witness :
  let g := [[Some "A"; Some "B"]; [Some "C"; None]]%char in
  exists st,
    number_grid [] g = (Ok st, g) /\
    num st = 1 + Z.of_nat (length (numbered_cells 2 g)) /\
    (forall n, is_Some (numbers st !! n)
               <-> 1 <= n <= Z.of_nat (length (numbered_cells 2 g))) /\
    (forall n, numbers st !! n = nth_numbered (numbered_cells 2 g) n) /\
    (forall n m p q,
       numbers st !! n = Some p -> numbers st !! m = Some q -> n < m ->
       row_major_lt p q) /\
    (forall n m p,
       numbers st !! n = Some p -> numbers st !! m = Some p -> n = m).
Proof.
  apply (numbering_sequential 2).
  split; [reflexivity | repeat constructor].
Defined.

(** ** Scenarios *)

(** Grid size 13 with PYTHON, JAVA and RUST: PYTHON is seeded at row 6,
    column 3; JAVA shares no letter and is dropped; RUST crosses the T
    vertically from row 3, column 5. *)
Example python_java_rust :
  match generate_crossword (fun l => l)
          [mkWordEntry (list_ascii_of_string "PYTHON") "a language";
           mkWordEntry (list_ascii_of_string "JAVA") "an island";
           mkWordEntry (list_ascii_of_string "RUST") "iron oxide"] 13 10 with
  | Ok (_, placed) => map (fun p => (row p, col p, direction p)) placed
  | IndexError => []
  end = [(6, 3, 0); (3, 5, 1)].
Proof. vm_compute. reflexivity. Qed.

(** No candidate: empty grid, no placed word, no number. *)
Example no_candidate :
  generate_crossword (fun l => l) [] 2 10 = Ok (initialise_grid 2, []) /\
  fst (number_grid [] (initialise_grid 2))
  = Ok {| num := 1; numbers := ∅; across := ∅; down := ∅ |}.
Proof. split; reflexivity. Qed.

(** With the empty word the end checks subscript the grid at an anchor
    that no bounds check has seen. *)
Example empty_word_index_error :
  can_place [] 1 0 0 [[None]] = (IndexError, [[None]]).
Proof. reflexivity. Qed.

(** * Further properties of the code *)

(** ** The writer without validation *)

Lemma place_word_from_exact (row0 col0 d : Z) (w : word_t) :
  valid_direction d ->
  forall (i : Z) (g : Grid),
    (forall k : nat, (k < length w)%nat ->
       exists x, lookup_cell g (cell_row row0 d (i + Z.of_nat k))
                               (cell_col col0 d (i + Z.of_nat k)) = Some x) ->
    exists g',
      place_word_from row0 col0 d i w g = (Ok tt, g') /\
      (forall (k : nat) (ch : ascii), w !! k = Some ch ->
         lookup_cell g' (cell_row row0 d (i + Z.of_nat k))
                        (cell_col col0 d (i + Z.of_nat k)) = Some (Some ch)) /\
      (forall r c,
         (forall k : nat, (k < length w)%nat ->
            ~ (r = cell_row row0 d (i + Z.of_nat k) /\
               c = cell_col col0 d (i + Z.of_nat k))) ->
         lookup_cell g' r c = lookup_cell g r c) /\
      (forall N, square N g -> square N g').
Proof.
  intros Hd. induction w as [|a rest IH]; intros i g Hcells.
  - exists g. split; [done|]. split; [by intros k ch Hk | done].
  - set (r0 := cell_row row0 d i). set (c0 := cell_col col0 d i).
    destruct (Hcells 0%nat) as [old Hold]; [simpl; lia|].
    rewrite Z.add_0_r in Hold. fold r0 c0 in Hold.
    destruct (write_cell g r0 c0 old (Some a) Hold) as (g1 & Hwrite & Hlook & Hsq1).
    destruct (IH (i + 1) g1) as (g' & Hrun & Hcov & Hframe & Hsq').
    { intros k Hk. rewrite Hlook. case_decide; [eauto|].
      destruct (Hcells (S k)) as [x Hx]; [simpl; lia|]. exists x.
      by replace (i + 1 + Z.of_nat k) with (i + Z.of_nat (S k)) by lia. }
    exists g'. split_and!.
    + simpl. unfold bind, grid_set. fold r0 c0. by rewrite Hwrite.
    + intros [|k] ch Hk.
      * injection Hk as <-. rewrite Z.add_0_r. fold r0 c0.
        rewrite Hframe, Hlook; [by rewrite decide_True|].
        intros k _ [Hr Hc].
        apply (cell_distinct row0 col0 d i (i + 1 + Z.of_nat k) Hd); [lia | done].
      * replace (i + Z.of_nat (S k)) with (i + 1 + Z.of_nat k) by lia. by apply Hcov.
    + intros r c Hout. rewrite Hframe, Hlook.
      * rewrite decide_False; [done|]. intros [-> ->].
        apply (Hout 0%nat); [simpl; lia|]. by rewrite Z.add_0_r.
      * intros k Hk. replace (i + 1 + Z.of_nat k) with (i + Z.of_nat (S k)) by lia.
        apply Hout. simpl. lia.
    + intros N HN. by apply Hsq', Hsq1.
Qed.

Lemma place_word_exact (w : word_t) (row0 col0 d : Z) (g : Grid) :
  valid_direction d ->
  (forall k : nat, (k < length w)%nat ->
     exists x, lookup_cell g (cell_row row0 d (Z.of_nat k))
                             (cell_col col0 d (Z.of_nat k)) = Some x) ->
  exists g',
    place_word w row0 col0 d g = (Ok tt, g') /\
    (forall (k : nat) (ch : ascii), w !! k = Some ch ->
       lookup_cell g' (cell_row row0 d (Z.of_nat k))
                      (cell_col col0 d (Z.of_nat k)) = Some (Some ch)) /\
    (forall r c, ~ target_of w row0 col0 d r c ->
       lookup_cell g' r c = lookup_cell g r c) /\
    (forall N, square N g -> square N g').
Proof.
  intros Hd Hcells.
  destruct (place_word_from_exact row0 col0 d w Hd 0 g)
    as (g' & Hrun & Hcov & Hframe & Hsq).
  { intros k Hk. rewrite Z.add_0_l. by apply Hcells. }
  exists g'. split_and!; [done | | | done].
  - intros k ch Hk. specialize (Hcov k ch Hk). by rewrite Z.add_0_l in Hcov.
  - intros r c Hout. apply Hframe. intros k Hk. rewrite Z.add_0_l.
    intros [Hr Hc]. apply Hout. by exists k.
Qed.

(** X1: [place_word] on target cells that all exist, in a valid direction,
    with or without a prior [can_place]: it completes, every letter is in
    its target cell, every other cell is as before and the grid keeps its
    shape. *)
Theorem place_word_writes_exactly (w : word_t) (row0 col0 d : Z) (g : Grid) :
  valid_direction d ->
  (forall k : nat, (k < length w)%nat ->
     exists x, lookup_cell g (cell_row row0 d (Z.of_nat k))
                             (cell_col col0 d (Z.of_nat k)) = Some x) ->
  exists g',
    place_word w row0 col0 d g = (Ok tt, g') /\
    (forall (k : nat) (ch : ascii), w !! k = Some ch ->
       lookup_cell g' (cell_row row0 d (Z.of_nat k))
                      (cell_col col0 d (Z.of_nat k)) = Some (Some ch)) /\
    (forall r c, ~ target_of w row0 col0 d r c ->
       lookup_cell g' r c = lookup_cell g r c) /\
    (forall N, square N g -> square N g').
Proof. apply place_word_exact. Qed.

Lemma place_word_writes_exactly_witness :
  exists g',
    place_word ["A"; "B"]%char 0 1 1 [[None; Some "X"]; [None; None]]%char
      = (Ok tt, g') /\
    (forall (k : nat) (ch : ascii), ["A"; "B"]%char !! k = Some ch ->
       lookup_cell g' (cell_row 0 1 (Z.of_nat k))
                      (cell_col 1 1 (Z.of_nat k)) = Some (Some ch)) /\
    (forall r c, ~ target_of ["A"; "B"]%char 0 1 1 r c ->
       lookup_cell g' r c
       = lookup_cell [[None; Some "X"]; [None; None]]%char r c) /\
    (forall N, square N [[None; Some "X"]; [None; None]]%char -> square N g').
Proof.
  apply place_word_writes_exactly.
  - right. reflexivity.
  - intros [|[|k]] Hk; simpl in Hk; [by eexists | by eexists | lia].
Defined.

Lemma place_word_from_app (row0 col0 d : Z) (w1 w2 : word_t) :
  forall (i : Z) (g : Grid),
    place_word_from row0 col0 d i (w1 ++ w2) g
    = bind (place_word_from row0 col0 d i w1)
        (fun _ => place_word_from row0 col0 d (i + Z.of_nat (length w1)) w2) g.
Proof.
  induction w1 as [|a rest IH]; intros i g.
  - simpl. by rewrite Z.add_0_r.
  - simpl. rewrite bind_assoc. apply bind_ext. intros _ g1. rewrite IH.
    by replace (i + 1 + Z.of_nat (length rest))
      with (i + Z.of_nat (S (length rest))) by lia.
Qed.

Lemma write_beyond (N : Z) (g : Grid) (r c : Z) (v : cell) :
  square N g -> N <= r \/ N <= c -> write g r c v = IndexError.
Proof.
  intros [Hlen Hrows] Hout. unfold write, getitem.
  destruct (py_index (length g) r) as [k|] eqn:Hk; [|done].
  destruct (g !! k) as [line|] eqn:Hline; [|done].
  rewrite Forall_lookup in Hrows. specialize (Hrows _ _ Hline). simpl in Hrows.
  unfold setitem.
  destruct (py_index (length line) c) as [kc|] eqn:Hkc; [|done].
  exfalso. unfold py_index in Hk, Hkc.
  destruct Hout.
  - destruct (Z.leb_spec 0 r), (Z.ltb_spec r (Z.of_nat (length g))),
      (Z.leb_spec (- Z.of_nat (length g)) r), (Z.ltb_spec r 0);
      simpl in Hk; try done; lia.
  - destruct (Z.leb_spec 0 c), (Z.ltb_spec c (Z.of_nat (length line))),
      (Z.leb_spec (- Z.of_nat (length line)) c), (Z.ltb_spec c 0);
      simpl in Hkc; try done; lia.
Qed.

(** X2: [place_word] does not validate.  When the letters of [w1] fit on
    the grid and the next letter falls beyond the last row or column,
    [place_word] raises [IndexError] after the letters of [w1] have been
    written: the grid is left as [place_word] of [w1] alone leaves it. *)
Theorem place_word_overrun (N : Z) (g : Grid) (w1 : word_t) (ch : ascii)
    (w2 : word_t) (row0 col0 d : Z) :
  square N g -> valid_direction d ->
  targets_on_grid N w1 row0 col0 d ->
  N <= cell_row row0 d (Z.of_nat (length w1)) \/
  N <= cell_col col0 d (Z.of_nat (length w1)) ->
  exists g',
    place_word (w1 ++ ch :: w2) row0 col0 d g = (IndexError, g') /\
    place_word w1 row0 col0 d g = (Ok tt, g') /\
    (forall (k : nat) (a : ascii), w1 !! k = Some a ->
       lookup_cell g' (cell_row row0 d (Z.of_nat k))
                      (cell_col col0 d (Z.of_nat k)) = Some (Some a)).
Proof.
  intros Hsq Hd Hfit Hout.
  destruct (place_word_exact w1 row0 col0 d g Hd)
    as (g' & Hrun & Hcov & _ & Hsq').
  { intros k Hk. by apply (square_lookup_cell N), Hfit. }
  exists g'. split_and!; [|done..].
  unfold place_word in *. rewrite place_word_from_app.
  rewrite (bind_ok _ _ _ _ _ Hrun). simpl. rewrite Z.add_0_l.
  unfold bind, grid_set. by rewrite (write_beyond N g' _ _ _ (Hsq' N Hsq) Hout).
Qed.

Lemma place_word_overrun_witness :
  exists g',
    place_word (["A"] ++ "B" :: ["C"])%char 0 1 0 (initialise_grid 2)
      = (IndexError, g') /\
    place_word ["A"]%char 0 1 0 (initialise_grid 2) = (Ok tt, g') /\
    (forall (k : nat) (a : ascii), ["A"]%char !! k = Some a ->
       lookup_cell g' (cell_row 0 0 (Z.of_nat k))
                      (cell_col 1 0 (Z.of_nat k)) = Some (Some a)).
Proof.
  apply (place_word_overrun 2).
  - split; [reflexivity | repeat constructor].
  - left. reflexivity.
  - intros [|k] Hk; simpl in Hk; [|lia]. unfold on_grid, cell_row, cell_col. simpl. lia.
  - right. unfold cell_col. simpl. lia.
Defined.

Lemma place_word_validated (w : word_t) (row0 col0 d : Z) (g : Grid) :
  valid_direction d ->
  fst (can_place w row0 col0 d g) = Ok true ->
  exists g',
    place_word w row0 col0 d g = (Ok tt, g') /\
    (forall (k : nat) (ch : ascii), w !! k = Some ch ->
       lookup_cell g' (cell_row row0 d (Z.of_nat k))
                      (cell_col col0 d (Z.of_nat k)) = Some (Some ch)) /\
    (forall r c x, lookup_cell g r c = Some (Some x) ->
                   lookup_cell g' r c = Some (Some x)) /\
    (forall r c, ~ target_of w row0 col0 d r c ->
                 lookup_cell g' r c = lookup_cell g r c) /\
    (forall N, square N g -> square N g').
Proof.
  intros Hd Hyes.
  destruct (place_word_run w row0 col0 d g Hd Hyes) as (g' & Hrun & Hcov & Hext & Hsq).
  destruct (place_word_exact w row0 col0 d g Hd)
    as (g'' & Hrun' & _ & Hframe & _).
  { intros k Hk. destruct (lookup_lt_is_Some_2 w k Hk) as [ch Hch].
    destruct (can_place_accepts w row0 col0 d g Hyes k ch Hch); eauto. }
  rewrite Hrun in Hrun'. injection Hrun' as <-. by exists g'.
Qed.

(** X3: a placement that [can_place] accepted changes no letter: after
    [place_word], every cell that held a letter holds the same letter, and
    every cell that is not a target cell is as before. *)
Theorem validated_write_keeps_letters (w : word_t) (row0 col0 d : Z) (g : Grid) :
  valid_direction d ->
  fst (can_place w row0 col0 d g) = Ok true ->
  exists g',
    place_word w row0 col0 d g = (Ok tt, g') /\
    (forall r c x, lookup_cell g r c = Some (Some x) ->
                   lookup_cell g' r c = Some (Some x)) /\
    (forall r c, ~ target_of w row0 col0 d r c ->
                 lookup_cell g' r c = lookup_cell g r c).
Proof.
  intros Hd Hyes.
  destruct (place_word_validated w row0 col0 d g Hd Hyes)
    as (g' & Hrun & _ & Hext & Hframe & _).
  by exists g'.
Qed.

Lemma validated_write_keeps_letters_witness :
  exists g',
    place_word ["X"; "B"]%char 0 1 1 [[None; Some "X"]; [None; None]]%char
      = (Ok tt, g') /\
    (forall r c x,
       lookup_cell [[None; Some "X"]; [None; None]]%char r c = Some (Some x) ->
       lookup_cell g' r c = Some (Some x)) /\
    (forall r c, ~ target_of ["X"; "B"]%char 0 1 1 r c ->
       lookup_cell g' r c
       = lookup_cell [[None; Some "X"]; [None; None]]%char r c).
Proof.
  apply validated_write_keeps_letters.
  - right. reflexivity.
  - reflexivity.
Defined.

(** ** Where the crossing search puts a word *)

Lemma in_enumerate_from {A : Type} (l : list A) (s z : Z) (a : A) :
  In (z, a) (enumerate_from s l) ->
  exists k : nat, l !! k = Some a /\ z = s + Z.of_nat k.
Proof.
  revert s. induction l as [|x rest IH]; intros s; simpl; [done|].
  intros [[= <- <-] | Hin].
  - exists 0%nat. split; [done | lia].
  - destruct (IH _ Hin) as (k & Hk & ->). exists (S k). split; [done | lia].
Qed.

Lemma in_crossings (w : word_t) (placed : list PlacedWord) (x : Z * Z * Z) :
  In x (crossings w placed) ->
  exists (p : PlacedWord) (i j : nat) (a : ascii),
    In p placed /\ word (entry p) !! i = Some a /\ w !! j = Some a /\
    x = crossing p (Z.of_nat i) (Z.of_nat j).
Proof.
  unfold crossings, crossings_with, crossings_at.
  intros (p & Hp & ([zi a] & Hia & ([zj b] & Hjb & Hx)%in_flat_map)%in_flat_map)%in_flat_map.
  simpl in Hx.
  apply in_enumerate_from in Hia as (i & Hi & ->).
  apply in_enumerate_from in Hjb as (j & Hj & ->).
  destruct (Ascii.eqb_spec a b) as [->|]; [|done].
  destruct Hx as [<-|[]]. exists p, i, j, b. by rewrite !Z.add_0_l.
Qed.

(** X4: a word placed by [try_place_word] crosses an already placed word
    at a letter they have in common: it is the candidate, it runs in the
    other direction, and (for a placed word that is horizontal or vertical)
    its letter [j] lies on the cell of letter [i] of that word. *)
Theorem placed_word_crosses (e : WordEntry) (placed : list PlacedWord)
    (g g' : Grid) (q : PlacedWord) :
  try_place_word e placed g = (Ok (Some q), g') ->
  exists (p : PlacedWord) (i j : nat) (a : ascii),
    In p placed /\
    word (entry p) !! i = Some a /\ word e !! j = Some a /\
    entry q = e /\
    direction q = (if direction p =? 0 then 1 else 0) /\
    (valid_direction (direction p) ->
       cell_row (row q) (direction q) (Z.of_nat j)
         = cell_row (row p) (direction p) (Z.of_nat i) /\
       cell_col (col q) (direction q) (Z.of_nat j)
         = cell_col (col p) (direction p) (Z.of_nat i)).
Proof.
  intros Hrun. rewrite try_place_word_search in Hrun.
  pose proof (first_fit_search_cases e (crossings (word e) placed) g
                (crossings_valid (word e) placed)) as Hcases.
  rewrite Hrun in Hcases. destruct Hcases as (He & Hin & _).
  apply in_crossings in Hin as (p & i & j & a & Hp & Hi & Hj & Hx).
  exists p, i, j, a. split_and!; [done..| |].
  - unfold crossing in Hx. destruct (direction p =? 0); by injection Hx.
  - intros [Hd | Hd]; unfold crossing in Hx; rewrite Hd in *; simpl in Hx;
      injection Hx as -> -> ->; unfold cell_row, cell_col; simpl; lia.
Qed.

Lemma placed_word_crosses_witness :
  let e := mkWordEntry ["A"; "C"]%char "second" in
  let p0 := mkPlacedWord (mkWordEntry ["A"; "B"]%char "first") 1 0 0 in
  let q := mkPlacedWord e 1 0 1 in
  exists (p : PlacedWord) (i j : nat) (a : ascii),
    In p [p0] /\
    word (entry p) !! i = Some a /\ word e !! j = Some a /\
    entry q = e /\
    direction q = (if direction p =? 0 then 1 else 0) /\
    (valid_direction (direction p) ->
       cell_row (row q) (direction q) (Z.of_nat j)
         = cell_row (row p) (direction p) (Z.of_nat i) /\
       cell_col (col q) (direction q) (Z.of_nat j)
         = cell_col (col p) (direction p) (Z.of_nat i)).
Proof.
  apply (placed_word_crosses _ _
           [[None; None; None]; [Some "A"; Some "B"; None]; [None; None; None]]%char
           [[None; None; None]; [Some "A"; Some "B"; None]; [Some "C"; None; None]]%char).
  reflexivity.
Defined.

(** X5: a candidate that has no letter in common with any placed word (the
    empty word among them) is dropped: [try_place_word] returns [None] and
    leaves the grid as it was. *)
Theorem no_common_letter_dropped (e : WordEntry) (placed : list PlacedWord)
    (g : Grid) :
  (forall p a, In p placed -> In a (word (entry p)) -> ~ In a (word e)) ->
  try_place_word e placed g = (Ok None, g).
Proof.
  intros Hdisjoint. rewrite try_place_word_search.
  destruct (crossings (word e) placed) as [|x rest] eqn:Hc; [done|]. exfalso.
  destruct (in_crossings (word e) placed x) as (p & i & j & a & Hp & Hi & Hj & _).
  { rewrite Hc. by left. }
  apply (Hdisjoint p a Hp); apply list_elem_of_In, list_elem_of_lookup; eauto.
Qed.

Lemma no_common_letter_dropped_witness :
  try_place_word (mkWordEntry ["C"; "D"]%char "second")
    [mkPlacedWord (mkWordEntry ["A"; "B"]%char "first") 1 0 0]
    [[None; None; None]; [Some "A"; Some "B"; None]; [None; None; None]]%char
  = (Ok None,
     [[None; None; None]; [Some "A"; Some "B"; None]; [None; None; None]]%char).
Proof.
  apply no_common_letter_dropped.
  intros p a [<-|[]] Ha Hc. simpl in Ha, Hc.
  destruct Ha as [<-|[<-|[]]]; destruct Hc as [Hc|[Hc|[]]]; discriminate Hc.
Defined.

(** ** The ordering policy *)

Lemma insert_by_length_perm (e : WordEntry) (l : list WordEntry) :
  Permutation (insert_by_length e l) (e :: l).
Proof.
  induction l as [|x rest IH]; simpl; [done|].
  destruct (_ <? _)%nat; [|done]. rewrite IH. apply perm_swap.
Qed.

Lemma of_length_insert (n : nat) (e : WordEntry) (l : list WordEntry) :
  of_length n (insert_by_length e l) = of_length n (e :: l).
Proof.
  unfold of_length. induction l as [|x rest IH]; simpl; [done|].
  destruct (Nat.ltb_spec (length (word e)) (length (word x))); [|done].
  simpl in *. rewrite IH.
  destruct (Nat.eqb_spec (length (word e)) n), (Nat.eqb_spec (length (word x)) n);
    try done. lia.
Qed.

Lemma sort_by_length_perm (l : list WordEntry) : Permutation (sort_by_length l) l.
Proof.
  induction l as [|e rest IH]; simpl; [done|].
  by rewrite insert_by_length_perm, IH.
Qed.

(** X6: the order in which candidates are tried: the sorted list is a
    permutation of the selection, by descending word length, and entries
    of equal length keep the order they had (the sort is stable). *)
Theorem sort_by_length_stable (l : list WordEntry) :
  Permutation (sort_by_length l) l /\
  StronglySorted (fun a b => length (word b) <= length (word a))%nat
    (sort_by_length l) /\
  (forall n : nat, of_length n (sort_by_length l) = of_length n l).
Proof.
  split_and!.
  - apply sort_by_length_perm.
  - apply sort_by_length_sorted.
  - intros n. induction l as [|e rest IH]; simpl; [done|].
    rewrite of_length_insert. unfold of_length in *. simpl. by rewrite IH.
Qed.

(** X7: [select_words], whatever permutation the shuffle produces, returns
    entries of the database, and it returns the front of the shuffled list:
    the shuffled list is the selection followed by the entries left out.
    With [max_words >= 0] the selection has [max_words] entries, or all when
    there are fewer; with a negative [max_words] the slice drops that many
    entries from the end instead of returning nothing. *)
Theorem select_words_count (shuffle : list WordEntry -> list WordEntry)
    (entries : list WordEntry) (max_words : Z) :
  (forall l, Permutation (shuffle l) l) ->
  (forall e, In e (select_words shuffle entries max_words) -> In e entries) /\
  Z.of_nat (length (select_words shuffle entries max_words))
  = (if 0 <=? max_words
     then Z.min max_words (Z.of_nat (length entries))
     else Z.max 0 (Z.of_nat (length entries) + max_words)) /\
  (exists dropped,
     shuffle entries = select_words shuffle entries max_words ++ dropped /\
     Z.of_nat (length dropped)
     = (if 0 <=? max_words
        then Z.max 0 (Z.of_nat (length entries) - max_words)
        else Z.min (Z.of_nat (length entries)) (- max_words))).
Proof.
  intros Hperm. unfold select_words, py_prefix.
  pose proof (Permutation_length (Hperm entries)) as Hlen. split_and!.
  - intros e He. apply (Permutation_in _ (Hperm entries)).
    apply list_elem_of_In. apply list_elem_of_In in He.
    destruct (0 <=? max_words); by apply subseteq_take in He.
  - destruct (Z.leb_spec 0 max_words); rewrite length_take; lia.
  - destruct (Z.leb_spec 0 max_words).
    + exists (drop (Z.to_nat max_words) (shuffle entries)).
      rewrite take_drop, length_drop. split; [done | lia].
    + exists (drop (Z.to_nat (Z.of_nat (length (shuffle entries)) + max_words))
                (shuffle entries)).
      rewrite take_drop, length_drop. split; [done | lia].
Qed.

Lemma select_words_count_witness :
  (forall e,
     In e (select_words (fun l => l)
             [mkWordEntry ["A"]%char "a"; mkWordEntry ["B"]%char "b"] (-1)) ->
     In e [mkWordEntry ["A"]%char "a"; mkWordEntry ["B"]%char "b"]) /\
  Z.of_nat (length (select_words (fun l => l)
                      [mkWordEntry ["A"]%char "a"; mkWordEntry ["B"]%char "b"] (-1)))
  = 1 /\
  (exists dropped,
     [mkWordEntry ["A"]%char "a"; mkWordEntry ["B"]%char "b"]
     = select_words (fun l => l)
         [mkWordEntry ["A"]%char "a"; mkWordEntry ["B"]%char "b"] (-1) ++ dropped /\
     Z.of_nat (length dropped) = 1).
Proof.
  apply (select_words_count (fun l => l)
           [mkWordEntry ["A"]%char "a"; mkWordEntry ["B"]%char "b"] (-1)).
  intros l. reflexivity.
Defined.

(** ** The empty grid *)

Lemma getitem_replicate {A : Type} (n : nat) (x : A) (i : Z) :
  getitem (replicate n x) i =
  if (- Z.of_nat n <=? i) && (i <? Z.of_nat n) then Ok x else IndexError.
Proof.
  unfold getitem, py_index. rewrite length_replicate.
  destruct (Z.leb_spec 0 i), (Z.ltb_spec i (Z.of_nat n)),
    (Z.leb_spec (- Z.of_nat n) i), (Z.ltb_spec i 0); simpl; try done; try lia;
    rewrite lookup_replicate_2; (done || lia).
Qed.

(** X8: [initialise_grid(size)] is a square grid of side [max(0, size)]
    with every cell empty: a subscript pair within [-N, N) on both axes
    (negative indices count from the end) reads [None], every other one
    raises [IndexError]. *)
Theorem initialise_grid_empty (size r c : Z) :
  square (Z.max 0 size) (initialise_grid size) /\
  read (initialise_grid size) r c =
  if (- Z.max 0 size <=? r) && (r <? Z.max 0 size) &&
     (- Z.max 0 size <=? c) && (c <? Z.max 0 size)
  then Ok None else IndexError.
Proof.
  split; [apply square_initialise_grid|].
  unfold read, initialise_grid. rewrite getitem_replicate.
  replace (Z.of_nat (Z.to_nat size)) with (Z.max 0 size) by lia.
  destruct (_ && _); simpl; [|done].
  rewrite getitem_replicate.
  by replace (Z.of_nat (Z.to_nat size)) with (Z.max 0 size) by lia.
Qed.

(** ** The validator on the empty word *)

Lemma ends_blocked_anchor (N : Z) (g : Grid) (row0 col0 d len : Z) :
  square N g -> on_grid N row0 col0 -> 0 <= len ->
  exists b, ends_blocked N row0 col0 d len g = (Ok b, g) /\
            (b = false <-> ends_clear g row0 col0 d len).
Proof.
  intros Hsq [Hr Hc] Hlen. unfold ends_blocked, ends_clear. destruct (d =? 0).
  - rewrite (bind_ok _ _ g g (occupied g row0 (col0 - 1))).
    2:{ apply (guarded_letter_occupied N g Hsq). unfold on_grid.
        rewrite Z.gtb_ltb, Z.ltb_lt. lia. }
    destruct (occupied g row0 (col0 - 1)).
    + exists true. split; [done|]. split; [done | by intros [? _]].
    + exists (occupied g row0 (col0 + len)). split; [|tauto].
      apply (guarded_letter_occupied N g Hsq). unfold on_grid. rewrite Z.ltb_lt. lia.
  - rewrite (bind_ok _ _ g g (occupied g (row0 - 1) col0)).
    2:{ apply (guarded_letter_occupied N g Hsq). unfold on_grid.
        rewrite Z.gtb_ltb, Z.ltb_lt. lia. }
    destruct (occupied g (row0 - 1) col0).
    + exists true. split; [done|]. split; [done | by intros [? _]].
    + exists (occupied g (row0 + len) col0). split; [|tauto].
      apply (guarded_letter_occupied N g Hsq). unfold on_grid. rewrite Z.ltb_lt. lia.
Qed.

(** X9: the empty word anchored on the grid.  [can_place] returns, and
    returns [True] exactly when the four placement conditions hold, which
    here means that the anchor cell and the cell before it hold no letter. *)
Theorem can_place_empty_word_on_grid (N : Z) (g : Grid) (row0 col0 d : Z) :
  square N g -> on_grid N row0 col0 ->
  exists b,
    can_place [] row0 col0 d g = (Ok b, g) /\
    (b = true <-> legal_placement N g [] row0 col0 d) /\
    (b = true <-> ends_clear g row0 col0 d 0).
Proof.
  intros Hsq Hon. unfold can_place.
  assert (Hlen : grid_len g = (Ok N, g)).
  { unfold grid_len. by destruct Hsq as [-> _]. }
  rewrite (bind_ok _ _ _ _ _ Hlen). simpl.
  rewrite (bind_ok _ _ g g true) by done.
  destruct (ends_blocked_anchor N g row0 col0 d 0 Hsq Hon) as (blocked & Hrun & Hclear);
    [lia|].
  rewrite (bind_ok _ _ _ _ _ Hrun). exists (negb blocked). split; [done|].
  assert (Hb : negb blocked = true <-> ends_clear g row0 col0 d 0).
  { rewrite <- Hclear. destruct blocked; simpl; intuition congruence. }
  split; [|done]. rewrite Hb.
  unfold legal_placement, targets_on_grid, no_conflict, empty_targets_isolated.
  simpl. split; [|tauto]. intros Hends. split_and!; try done; intros; lia.
Qed.

Lemma can_place_empty_word_on_grid_witness :
  exists b,
    can_place [] 0 1 0 [[Some "A"; None]; [None; None]]%char
      = (Ok b, [[Some "A"; None]; [None; None]]%char) /\
    (b = true <-> legal_placement 2 [[Some "A"; None]; [None; None]]%char [] 0 1 0) /\
    (b = true <-> ends_clear [[Some "A"; None]; [None; None]]%char 0 1 0 0).
Proof.
  apply can_place_empty_word_on_grid.
  - split; [reflexivity | repeat constructor].
  - unfold on_grid. lia.
Defined.

Lemma read_row_out (N : Z) (g : Grid) (r c : Z) :
  square N g -> r < - N \/ N <= r -> read g r c = IndexError.
Proof.
  intros [Hlen _] Hout. unfold read, getitem, py_index.
  destruct (Z.leb_spec 0 r), (Z.ltb_spec r (Z.of_nat (length g))),
    (Z.leb_spec (- Z.of_nat (length g)) r), (Z.ltb_spec r 0);
    simpl; try done; lia.
Qed.

Lemma read_col_out (N : Z) (g : Grid) (r c : Z) :
  square N g -> c < - N \/ N <= c -> read g r c = IndexError.
Proof.
  intros [Hlen Hrows] Hout. unfold read.
  destruct (getitem g r) as [line|] eqn:Hline; [|done].
  assert (Z.of_nat (length line) = N) as Hl.
  { unfold getitem in Hline. destruct (py_index (length g) r) as [k|]; [|done].
    destruct (g !! k) as [line'|] eqn:Hk; [|done]. injection Hline as ->.
    rewrite Forall_lookup in Hrows. apply (Hrows _ _ Hk). }
  unfold getitem, py_index.
  destruct (Z.leb_spec 0 c), (Z.ltb_spec c (Z.of_nat (length line))),
    (Z.leb_spec (- Z.of_nat (length line)) c), (Z.ltb_spec c 0);
    simpl; try done; lia.
Qed.

(** X10: the empty word anchored off the grid.  No bounds check has run
    when the cells at the two ends are subscripted, so on a grid of size
    [N >= 1] a horizontal empty word whose row, or a vertical empty word
    whose column, is outside [-N, N) makes [can_place] raise [IndexError]
    (the grid is left as it was). *)
Theorem can_place_empty_word_raises (N : Z) (g : Grid) (row0 col0 : Z) :
  square N g -> 1 <= N ->
  (row0 < - N \/ N <= row0 ->
     can_place [] row0 col0 0 g = (IndexError, g)) /\
  (col0 < - N \/ N <= col0 ->
     can_place [] row0 col0 1 g = (IndexError, g)).
Proof.
  intros Hsq HN.
  assert (Hlen : grid_len g = (Ok N, g)).
  { unfold grid_len. by destruct Hsq as [-> _]. }
  split; intros Hout; unfold can_place;
    rewrite (bind_ok _ _ _ _ _ Hlen); simpl;
    rewrite (bind_ok _ _ g g true) by done;
    apply bind_error; unfold ends_blocked, guarded_letter; simpl.
  - destruct (Z.gtb_spec col0 0).
    + apply bind_error, bind_error. unfold grid_get.
      by rewrite (read_row_out N).
    + rewrite (bind_ok _ _ g g false) by done.
      destruct (Z.ltb_spec (col0 + Z.of_nat 0) N); [|lia].
      apply bind_error. unfold grid_get. by rewrite (read_row_out N).
  - destruct (Z.gtb_spec row0 0).
    + apply bind_error, bind_error. unfold grid_get.
      by rewrite (read_col_out N).
    + rewrite (bind_ok _ _ g g false) by done.
      destruct (Z.ltb_spec (row0 + Z.of_nat 0) N); [|lia].
      apply bind_error. unfold grid_get. by rewrite (read_col_out N).
Qed.

Lemma can_place_empty_word_raises_witness :
  can_place [] 5 0 0 (initialise_grid 2) = (IndexError, initialise_grid 2) /\
  can_place [] 0 (-3) 1 (initialise_grid 2) = (IndexError, initialise_grid 2).
Proof.
  split.
  - refine (proj1 (can_place_empty_word_raises 2 (initialise_grid 2) 5 0 _ _) _);
      [split; [reflexivity | repeat constructor] | lia | right; lia].
  - refine (proj2 (can_place_empty_word_raises 2 (initialise_grid 2) 0 (-3) _ _) _);
      [split; [reflexivity | repeat constructor] | lia | left; lia].
Defined.

(** ** The numbering pass only reads *)

Lemma readonly_for_each {A S : Type} (l : list A) (body : A -> S -> M S) :
  (forall x s, readonly (body x s)) -> forall s, readonly (for_each l body s).
Proof.
  intros Hbody. induction l as [|x rest IH]; intros s; simpl; [apply readonly_ret|].
  apply readonly_bind; [apply Hbody | apply IH].
Qed.

Lemma readonly_edge_or_empty (first r c : Z) : readonly (edge_or_empty first r c).
Proof.
  unfold edge_or_empty. destruct (first =? 0); [apply readonly_ret|].
  apply readonly_bind; [apply readonly_grid_get | intros; apply readonly_ret].
Qed.

Lemma readonly_number_cell (size : Z) (placed : list PlacedWord) (r c : Z)
    (st : Numbering) :
  readonly (number_cell size placed r c st).
Proof.
  unfold number_cell. apply readonly_bind; [apply readonly_grid_get|].
  intros [a|]; [|apply readonly_ret].
  apply readonly_bind; [apply readonly_edge_or_empty|]. intros open_left.
  apply readonly_bind.
  { destruct open_left; [apply readonly_guarded_letter | apply readonly_ret]. }
  intros start_across.
  apply readonly_bind; [apply readonly_edge_or_empty|]. intros open_top.
  apply readonly_bind.
  { destruct open_top; [apply readonly_guarded_letter | apply readonly_ret]. }
  intros start_down. destruct (_ || _); apply readonly_ret.
Qed.

(** X11: [number_grid] never writes to the grid, on any grid and also when
    it raises; numbering the grid a second time therefore gives the same
    result. *)
Theorem number_grid_only_reads (placed : list PlacedWord) (g : Grid) :
  snd (number_grid placed g) = g /\
  number_grid placed (snd (number_grid placed g)) = number_grid placed g.
Proof.
  assert (Hro : readonly (number_grid placed)).
  { unfold number_grid. apply readonly_bind; [apply readonly_grid_len|].
    intros size. apply readonly_for_each. intros r st.
    apply readonly_for_each. intros c st'. apply readonly_number_cell. }
  split; [apply Hro | by rewrite Hro].
Qed.

(** ** The layout invariant *)

Ltac cells_norm :=
  unfold cell_row, cell_col in *;
  change (b2z (0 =? 1)) with 0 in *; change (b2z (0 =? 0)) with 1 in *;
  change (b2z (1 =? 1)) with 1 in *; change (b2z (1 =? 0)) with 0 in *.

Lemma occupied_eq (g : Grid) (r c r' c' : Z) :
  r = r' -> c = c' -> occupied g r c = occupied g r' c'.
Proof. by intros -> ->. Qed.

Lemma occupied_frame (g g' : Grid) (r c : Z) :
  lookup_cell g' r c = lookup_cell g r c -> occupied g' r c = occupied g r c.
Proof. unfold occupied. by intros ->. Qed.

(** In a valid direction the two end cells are the cells of index -1 and
    of index [len]. *)
Lemma ends_clear_cells (g : Grid) (row0 col0 d len : Z) :
  valid_direction d ->
  ends_clear g row0 col0 d len <->
  occupied g (cell_row row0 d (-1)) (cell_col col0 d (-1)) = false /\
  occupied g (cell_row row0 d len) (cell_col col0 d len) = false.
Proof.
  intros [-> | ->]; unfold ends_clear; cells_norm; simpl (_ =? _).
  - by rewrite (occupied_eq g (row0 + 0 * -1) (col0 + 1 * -1) row0 (col0 - 1)),
      (occupied_eq g (row0 + 0 * len) (col0 + 1 * len) row0 (col0 + len)) by lia.
  - by rewrite (occupied_eq g (row0 + 1 * -1) (col0 + 0 * -1) (row0 - 1) col0),
      (occupied_eq g (row0 + 1 * len) (col0 + 0 * len) (row0 + len) col0) by lia.
Qed.

Lemma occupied_covers (g : Grid) (p : PlacedWord) :
  covers g p ->
  forall i : Z, 0 <= i < word_len p ->
    occupied g (cell_row (row p) (direction p) i)
               (cell_col (col p) (direction p) i) = true.
Proof.
  intros Hcov i Hi. unfold word_len in Hi.
  destruct (lookup_lt_is_Some_2 (word (entry p)) (Z.to_nat i)) as [ch Hch]; [lia|].
  specialize (Hcov _ _ Hch). rewrite Z2Nat.id in Hcov by lia.
  unfold occupied. by rewrite Hcov.
Qed.

Lemma target_of_dec (w : word_t) (row0 col0 d r c : Z) :
  target_of w row0 col0 d r c \/ ~ target_of w row0 col0 d r c.
Proof.
  unfold target_of.
  assert (Hbound : forall n : nat,
            (exists k : nat, (k < n)%nat /\
               r = cell_row row0 d (Z.of_nat k) /\ c = cell_col col0 d (Z.of_nat k)) \/
            (forall k : nat, (k < n)%nat ->
               ~ (r = cell_row row0 d (Z.of_nat k) /\ c = cell_col col0 d (Z.of_nat k)))).
  { induction n as [|n [(k & Hk & Hrc) | Hnone]].
    - right. intros k Hk. lia.
    - left. exists k. split; [lia | done].
    - destruct (decide (r = cell_row row0 d (Z.of_nat n) /\
                        c = cell_col col0 d (Z.of_nat n))) as [Hn | Hn].
      + left. exists n. split; [lia | done].
      + right. intros k Hk. destruct (decide (k = n)) as [-> | Hne]; [done|].
        apply Hnone. lia. }
  destruct (Hbound (length w)) as [Hyes | Hno]; [by left | right].
  intros (k & Hk & Hrc). by apply (Hno k Hk).
Qed.

(** A word that [can_place] accepts, and that is not longer than a placed
    word, does not reach the cell before the start or after the end of that
    placed word. *)
Lemma end_not_target (N : Z) (g : Grid) (p : PlacedWord) (w : word_t)
    (rq cq dq z : Z) :
  square N g ->
  valid_direction (direction p) -> valid_direction dq ->
  covers g p -> apart g p ->
  cells_ok N g rq cq dq 0 w ->
  ends_clear g rq cq dq (Z.of_nat (length w)) ->
  (length w <= length (word (entry p)))%nat ->
  z = -1 \/ z = word_len p ->
  ~ target_of w rq cq dq (cell_row (row p) (direction p) z)
                         (cell_col (col p) (direction p) z).
Proof.
  intros Hsq Hdp Hdq Hcov Hapart Hcells Hends Hlen Hz (k & Hk & Hr & Hc).
  apply ends_clear_cells in Hapart as [Hb Ha]; [|done].
  apply ends_clear_cells in Hends as [Hqb Hqa]; [|done].
  destruct (lookup_lt_is_Some_2 w k Hk) as [ch Hch].
  destruct (Hcells k ch Hch) as (Hon & _ & Hside). rewrite Z.add_0_l in Hon, Hside.
  assert (Hfree : occupied g (cell_row rq dq (Z.of_nat k))
                             (cell_col cq dq (Z.of_nat k)) = false).
  { rewrite <- Hr, <- Hc. by destruct Hz as [-> | ->]. }
  assert (Hempty : lookup_cell g (cell_row rq dq (Z.of_nat k))
                                 (cell_col cq dq (Z.of_nat k)) = Some None).
  { destruct (proj2 (square_lookup_cell N g _ _ Hsq) Hon) as [[a|] Hx]; [|done].
    unfold occupied in Hfree. by rewrite Hx in Hfree. }
  specialize (Hside Hempty). unfold sides_clear in Hside.
  pose proof (occupied_covers g p Hcov) as Hocc.
  unfold word_len in *.
  set (Lp := Z.of_nat (length (word (entry p)))) in *.
  set (Lq := Z.of_nat (length w)) in *.
  assert (HL : Lq <= Lp /\ 0 <= Z.of_nat k < Lq) by (unfold Lp, Lq; lia).
  clear Hcells Hch Hempty Hon Hfree Hcov.
  destruct Hdp as [Hdp | Hdp], Hdq as [Hdq | Hdq]; rewrite Hdp, Hdq in *;
    cells_norm; simpl (_ =? _) in Hside; destruct Hside as [Hs1 Hs2];
    destruct Hz as [-> | ->].
  - assert (H : occupied g (rq + 0 * Lq) (cq + 1 * Lq) = true)
      by (rewrite <- (Hocc (Lq - 1 - Z.of_nat k)) by lia; apply occupied_eq; lia).
    congruence.
  - assert (H : occupied g (rq + 0 * -1) (cq + 1 * -1) = true)
      by (rewrite <- (Hocc (Lp - 1 - Z.of_nat k)) by lia; apply occupied_eq; lia).
    congruence.
  - assert (H : occupied g (rq + 1 * Z.of_nat k) (cq + 0 * Z.of_nat k + 1) = true)
      by (rewrite <- (Hocc 0) by lia; apply occupied_eq; lia).
    congruence.
  - assert (H : occupied g (rq + 1 * Z.of_nat k) (cq + 0 * Z.of_nat k - 1) = true)
      by (rewrite <- (Hocc (Lp - 1)) by lia; apply occupied_eq; lia).
    congruence.
  - assert (H : occupied g (rq + 0 * Z.of_nat k + 1) (cq + 1 * Z.of_nat k) = true)
      by (rewrite <- (Hocc 0) by lia; apply occupied_eq; lia).
    congruence.
  - assert (H : occupied g (rq + 0 * Z.of_nat k - 1) (cq + 1 * Z.of_nat k) = true)
      by (rewrite <- (Hocc (Lp - 1)) by lia; apply occupied_eq; lia).
    congruence.
  - assert (H : occupied g (rq + 1 * Lq) (cq + 0 * Lq) = true)
      by (rewrite <- (Hocc (Lq - 1 - Z.of_nat k)) by lia; apply occupied_eq; lia).
    congruence.
  - assert (H : occupied g (rq + 1 * -1) (cq + 0 * -1) = true)
      by (rewrite <- (Hocc (Lp - 1 - Z.of_nat k)) by lia; apply occupied_eq; lia).
    congruence.
Qed.

Ltac occ_clash Htrue Hfalse :=
  first
    [ congruence
    | match type of Hfalse with
      | occupied ?g ?a ?b = false =>
          match type of Htrue with
          | occupied g ?a' ?b' = true =>
              rewrite (occupied_eq g a' b' a b) in Htrue by lia; congruence
          end
      end ].

Lemma empty_target_sides (N : Z) (g : Grid) (w : word_t) (rq cq dq r c : Z) :
  square N g -> cells_ok N g rq cq dq 0 w ->
  target_of w rq cq dq r c -> occupied g r c = false ->
  sides_clear g dq r c.
Proof.
  intros Hsq Hcells (k & Hk & -> & ->) Hfree.
  destruct (lookup_lt_is_Some_2 w k Hk) as [ch Hch].
  destruct (Hcells k ch Hch) as (Hon & _ & Hside). rewrite Z.add_0_l in Hon, Hside.
  apply Hside.
  destruct (proj2 (square_lookup_cell N g _ _ Hsq) Hon) as [[a|] Hx]; [|done].
  unfold occupied in Hfree. by rewrite Hx in Hfree.
Qed.

Lemma newly_filled (g g' : Grid) (w : word_t) (rq cq dq r c : Z) :
  (forall r c, ~ target_of w rq cq dq r c ->
               lookup_cell g' r c = lookup_cell g r c) ->
  occupied g' r c = true -> occupied g r c = false ->
  target_of w rq cq dq r c.
Proof.
  intros Hframe Hnew Hold.
  destruct (target_of_dec w rq cq dq r c) as [Ht | Hnot]; [done|].
  rewrite (occupied_frame g g') in Hnew by by apply Hframe. congruence.
Qed.

(** Writing a validated word puts no letter next to a letter of another
    word. *)
Lemma joined_commit (N : Z) (g g' : Grid) (placed : list PlacedWord)
    (e : WordEntry) (rq cq dq : Z) :
  square N g -> valid_direction dq -> joined g placed ->
  cells_ok N g rq cq dq 0 (word e) ->
  ends_clear g rq cq dq (Z.of_nat (length (word e))) ->
  (forall r c, ~ target_of (word e) rq cq dq r c ->
               lookup_cell g' r c = lookup_cell g r c) ->
  joined g' (placed ++ [mkPlacedWord e rq cq dq]).
Proof.
  intros Hsq Hd Hjoined Hcells Hends Hframe r c HA.
  apply ends_clear_cells in Hends as [Hqb Hqa]; [|done].
  pose proof (fun r c => empty_target_sides N g (word e) rq cq dq r c Hsq Hcells)
    as Hsides.
  pose proof (fun r c => newly_filled g g' (word e) rq cq dq r c Hframe) as Hnew.
  assert (Hq : In (mkPlacedWord e rq cq dq) (placed ++ [mkPlacedWord e rq cq dq])).
  { apply in_or_app. right. by left. }
  set (Lq := Z.of_nat (length (word e))) in *.
  split; intros HB.
  - destruct (occupied g r c) eqn:HA0, (occupied g r (c + 1)) eqn:HB0.
    + destruct (proj1 (Hjoined r c HA0) HB0) as (p & i & Hp & Hrest).
      exists p, i. split; [|done]. apply in_or_app. by left.
    + pose proof (Hnew _ _ HB HB0) as Ht.
      pose proof (Hsides _ _ Ht HB0) as Hs. destruct Ht as (k & Hk & Hr & Hc).
      unfold sides_clear in Hs.
      destruct Hd as [-> | ->]; cells_norm; simpl (_ =? _) in Hs;
        destruct Hs as [Hs1 Hs2].
      * destruct (decide (k = 0%nat)) as [-> | Hk0]; [occ_clash HA0 Hqb|].
        exists (mkPlacedWord e rq cq 0), (Z.of_nat k - 1).
        unfold word_len. simpl. split_and!; (done || lia).
      * occ_clash HA0 Hs1.
    + pose proof (Hnew _ _ HA HA0) as Ht.
      pose proof (Hsides _ _ Ht HA0) as Hs. destruct Ht as (k & Hk & Hr & Hc).
      unfold sides_clear in Hs.
      destruct Hd as [-> | ->]; cells_norm; simpl (_ =? _) in Hs;
        destruct Hs as [Hs1 Hs2].
      * destruct (decide (Z.of_nat k + 1 = Lq)) as [Hlast | Hlast];
          [occ_clash HB0 Hqa|].
        exists (mkPlacedWord e rq cq 0), (Z.of_nat k).
        unfold word_len. simpl. split_and!; (done || lia).
      * occ_clash HB0 Hs2.
    + destruct (Hnew _ _ HA HA0) as (k & Hk & Hr & Hc).
      destruct (Hnew _ _ HB HB0) as (k' & Hk' & Hr' & Hc').
      destruct Hd as [-> | ->]; cells_norm; [|lia].
      exists (mkPlacedWord e rq cq 0), (Z.of_nat k).
      unfold word_len. simpl. split_and!; (done || lia).
  - destruct (occupied g r c) eqn:HA0, (occupied g (r + 1) c) eqn:HB0.
    + destruct (proj2 (Hjoined r c HA0) HB0) as (p & i & Hp & Hrest).
      exists p, i. split; [|done]. apply in_or_app. by left.
    + pose proof (Hnew _ _ HB HB0) as Ht.
      pose proof (Hsides _ _ Ht HB0) as Hs. destruct Ht as (k & Hk & Hr & Hc).
      unfold sides_clear in Hs.
      destruct Hd as [-> | ->]; cells_norm; simpl (_ =? _) in Hs;
        destruct Hs as [Hs1 Hs2].
      * occ_clash HA0 Hs1.
      * destruct (decide (k = 0%nat)) as [-> | Hk0]; [occ_clash HA0 Hqb|].
        exists (mkPlacedWord e rq cq 1), (Z.of_nat k - 1).
        unfold word_len. simpl. split_and!; (done || lia).
    + pose proof (Hnew _ _ HA HA0) as Ht.
      pose proof (Hsides _ _ Ht HA0) as Hs. destruct Ht as (k & Hk & Hr & Hc).
      unfold sides_clear in Hs.
      destruct Hd as [-> | ->]; cells_norm; simpl (_ =? _) in Hs;
        destruct Hs as [Hs1 Hs2].
      * occ_clash HB0 Hs2.
      * destruct (decide (Z.of_nat k + 1 = Lq)) as [Hlast | Hlast];
          [occ_clash HB0 Hqa|].
        exists (mkPlacedWord e rq cq 1), (Z.of_nat k).
        unfold word_len. simpl. split_and!; (done || lia).
    + destruct (Hnew _ _ HA HA0) as (k & Hk & Hr & Hc).
      destruct (Hnew _ _ HB HB0) as (k' & Hk' & Hr' & Hc').
      destruct Hd as [-> | ->]; cells_norm; [lia|].
      exists (mkPlacedWord e rq cq 1), (Z.of_nat k).
      unfold word_len. simpl. split_and!; (done || lia).
Qed.

Lemma well_laid_initial (size : Z) :
  well_laid (Z.max 0 size) (initialise_grid size) [].
Proof.
  split_and!; [apply square_initialise_grid | constructor | |].
  - intros r c x Hx. by apply lookup_cell_initialise_grid in Hx.
  - intros r c Hocc. by rewrite occupied_initialise_grid in Hocc.
Qed.

(** Writing a validated word keeps the invariant, provided that the word
    is not longer than the words already placed. *)
Lemma commit_well_laid (N : Z) (g g' : Grid) (placed : list PlacedWord)
    (e : WordEntry) (r c d : Z) :
  well_laid N g placed ->
  valid_direction d -> word e <> [] ->
  fst (can_place (word e) r c d g) = Ok true ->
  place_word (word e) r c d g = (Ok tt, g') ->
  Forall (fun p => (length (word e) <= length (word (entry p)))%nat) placed ->
  well_laid N g' (placed ++ [mkPlacedWord e r c d]).
Proof.
  intros (Hsq & Hall & Hletters & Hjoined) Hd Hne Hyes Hrun Hlens.
  destruct (place_word_validated (word e) r c d g Hd Hyes)
    as (g'' & Hrun' & Hcov & Hext & Hframe & Hsq').
  rewrite Hrun in Hrun'. injection Hrun' as <-.
  destruct (can_place_run N g Hsq (word e) r c d Hne) as (b & Hb & Hiff).
  rewrite Hb in Hyes. simpl in Hyes. injection Hyes as ->.
  destruct (proj1 Hiff eq_refl) as [Hcells Hends].
  split_and!.
  - by apply Hsq'.
  - apply Forall_app. split.
    + rewrite Forall_forall in *. intros p Hp.
      destruct (Hall p Hp) as (Hdp & Hcp & Hap). split_and!; [done | |].
      * by apply (covers_extend g).
      * pose proof (fun z => end_not_target N g p (word e) r c d z
                               Hsq Hdp Hd Hcp Hap Hcells Hends (Hlens p Hp)) as Hnot.
        unfold apart. apply ends_clear_cells; [done|].
        apply ends_clear_cells in Hap as Hap'; [|done]. destruct Hap' as [Hb' Ha'].
        split; (rewrite (occupied_frame g g'); [done|]); apply Hframe, Hnot; auto.
    + constructor; [|constructor]. simpl. split_and!; [done | exact Hcov |].
      unfold apart, word_len. simpl. apply ends_clear_cells; [done|].
      apply ends_clear_cells in Hends as [Hqb Hqa]; [|done].
      split; (rewrite (occupied_frame g g'); [done|]); apply Hframe;
        intros (k & Hk & Hr & Hc);
        [apply (cell_distinct r c d (-1) (Z.of_nat k) Hd)
        |apply (cell_distinct r c d (Z.of_nat (length (word e))) (Z.of_nat k) Hd)];
        (lia || done).
  - intros r0 c0 x Hx.
    destruct (target_of_dec (word e) r c d r0 c0) as [(k & Hk & -> & ->) | Hnot].
    + destruct (lookup_lt_is_Some_2 (word e) k Hk) as [ch Hch].
      rewrite (Hcov k ch Hch) in Hx. injection Hx as <-.
      exists (mkPlacedWord e r c d), k. split; [|done].
      apply in_or_app. right. by left.
    + rewrite Hframe in Hx by done.
      destruct (Hletters _ _ _ Hx) as (p & k & Hp & Hrest).
      exists p, k. split; [|done]. apply in_or_app. by left.
  - by apply (joined_commit N g).
Qed.

Lemma place_first_well_laid (size : Z) (first : WordEntry) :
  exists placed g,
    place_first size first (initialise_grid size) = (Ok placed, g) /\
    well_laid (Z.max 0 size) g placed /\
    (placed = [] \/
     placed = [mkPlacedWord first (size / 2)
                 (Z.max 0 ((size - Z.of_nat (length (word first))) / 2)) 0]).
Proof.
  pose proof (place_first_cases size first (initialise_grid size)) as Hcases.
  simpl in Hcases.
  destruct (place_first_initial size first) as (placed0 & g0 & Hok & _).
  destruct (fst (can_place (word first) _ _ 0 (initialise_grid size)))
    as [[]|] eqn:Hyes.
  - destruct Hcases as (g' & Hwritten & Hseed).
    eexists _, g'. split; [exact Hseed|]. split; [|by right].
    destruct (word first) as [|a l] eqn:Hw.
    + injection Hwritten as <-.
      split_and!; [apply square_initialise_grid | | |].
      * constructor; [|constructor]. simpl. split_and!; [by left | |].
        -- intros k ch Hk. simpl in Hk. by rewrite Hw in Hk.
        -- unfold apart, ends_clear. simpl.
           by rewrite !occupied_initialise_grid.
      * intros r c x Hx. by apply lookup_cell_initialise_grid in Hx.
      * intros r c Hocc. by rewrite occupied_initialise_grid in Hocc.
    + rewrite <- Hw in *.
      apply (commit_well_laid _ (initialise_grid size) g' [] first);
        [apply well_laid_initial | by left | by rewrite Hw | done | done | constructor].
  - eexists _, _. split; [exact Hcases|]. split; [apply well_laid_initial | by left].
  - congruence.
Qed.

Lemma place_remaining_well_laid (N : Z) (selected : list WordEntry) :
  StronglySorted (fun a b => length (word b) <= length (word a))%nat selected ->
  forall (placed : list PlacedWord) (g : Grid),
    well_laid N g placed ->
    Forall (fun p => Forall (fun e => (length (word e)
                                       <= length (word (entry p)))%nat) selected)
           placed ->
    exists chosen g',
      place_remaining selected placed g = (Ok (placed ++ chosen), g') /\
      well_laid N g' (placed ++ chosen) /\
      sublist (map entry chosen) selected.
Proof.
  induction 1 as [|e rest Hsorted IH He]; intros placed g Hwl Hlens.
  - exists [], g. rewrite app_nil_r. by split_and!.
  - assert (Hrest : Forall (fun p => Forall (fun e' => (length (word e')
                              <= length (word (entry p)))%nat) rest) placed).
    { eapply Forall_impl; [exact Hlens|]. intros p Hp. by inversion Hp. }
    pose proof (first_fit_search_cases e (crossings (word e) placed) g
                  (crossings_valid (word e) placed)) as Hcases.
    destruct (try_place_word_step N g e placed (proj1 Hwl))
      as (found & g1 & Hstep & _).
    simpl. rewrite (bind_ok _ _ _ _ _ Hstep).
    rewrite try_place_word_search in Hstep. rewrite Hstep in Hcases.
    destruct found as [q|].
    + destruct Hcases as (Hentry & Hin & Hd & _ & Hyes & Hrun).
      assert (Hne : word e <> []).
      { intros Hnil. rewrite Hnil, crossings_nil in Hin. done. }
      assert (Hq : q = mkPlacedWord e (row q) (col q) (direction q)).
      { destruct q. simpl in *. by subst. }
      destruct (IH (placed ++ [q]) g1) as (chosen & g' & Hrun' & Hwl' & Hsub).
      { rewrite Hq. apply (commit_well_laid N g); try done.
        eapply Forall_impl; [exact Hlens|]. intros p Hp. by inversion Hp. }
      { apply Forall_app. split; [done|]. constructor; [|constructor].
        by rewrite Hentry. }
      exists (q :: chosen), g'. rewrite <- app_assoc in Hrun', Hwl'.
      split_and!; [done | done |]. simpl. rewrite Hentry. by constructor.
    + destruct Hcases as [-> _].
      destruct (IH placed g Hwl Hrest) as (chosen & g' & Hrun' & Hwl' & Hsub).
      exists chosen, g'. split_and!; [done | done | by constructor].
Qed.

(** What [generate_crossword] returns, for every input: it does not raise,
    and the grid and the placed words satisfy the layout invariant. *)
Lemma generate_well_laid (shuffle : list WordEntry -> list WordEntry)
    (entries : list WordEntry) (size max_words : Z) :
  exists g placed,
    generate_crossword shuffle entries size max_words = Ok (g, placed) /\
    well_laid (Z.max 0 size) g placed /\
    sublist (map entry placed)
      (sort_by_length (select_words shuffle entries max_words)) /\
    (forall p rest, placed = p :: rest ->
       direction p = 0 /\ row p = size / 2).
Proof.
  unfold generate_crossword.
  pose proof (sort_by_length_sorted (select_words shuffle entries max_words)) as Hsorted.
  destruct (sort_by_length (select_words shuffle entries max_words))
    as [|first rest].
  - exists (initialise_grid size), []. split_and!; [done | | done | done].
    apply well_laid_initial.
  - apply StronglySorted_inv in Hsorted as [Hsorted Hfirst].
    destruct (place_first_well_laid size first) as (placed1 & g1 & Hseed & Hwl & Hshape).
    destruct (place_remaining_well_laid _ rest Hsorted placed1 g1 Hwl)
      as (chosen & g & Hrun & Hwl' & Hsub).
    { destruct Hshape as [-> | ->]; [constructor|]. by repeat constructor. }
    exists g, (placed1 ++ chosen). simpl. rewrite (bind_ok _ _ _ _ _ Hseed), Hrun.
    split_and!; [done | done | |].
    + rewrite map_app. destruct Hshape as [-> | ->]; simpl; by constructor.
    + intros p rest' Hp.
      destruct Hshape as [-> | ->]; simpl in Hp.
      * pose proof (place_remaining_unseeded rest g1) as Hnone.
        rewrite Hnone in Hrun. injection Hrun as <- _. done.
      * by injection Hp as <- _.
Qed.

(** ** What [generate_crossword] returns *)

Lemma covers_inside (N : Z) (g : Grid) (p : PlacedWord) :
  square N g -> covers g p -> inside N p.
Proof.
  intros Hsq Hcov i Hi.
  destruct (lookup_lt_is_Some_2 _ i Hi) as [ch Hch].
  apply (square_lookup_cell N g); [done|]. eauto.
Qed.

(** X12: [generate_crossword] never raises, whatever the database, the
    shuffle, the size and the word limit.  It returns a square grid of side
    [max(0, size)]; every placed word is horizontal or vertical and lies on
    the grid with all its letters; the first placed word, if any, is
    horizontal in row [size // 2]. *)
Theorem generate_crossword_returns (shuffle : list WordEntry -> list WordEntry)
    (entries : list WordEntry) (size max_words : Z) :
  exists g placed,
    generate_crossword shuffle entries size max_words = Ok (g, placed) /\
    square (Z.max 0 size) g /\
    Forall (fun p => valid_direction (direction p) /\ inside (Z.max 0 size) p)
           placed /\
    (forall p rest, placed = p :: rest -> direction p = 0 /\ row p = size / 2).
Proof.
  destruct (generate_well_laid shuffle entries size max_words)
    as (g & placed & Hrun & (Hsq & Hall & _ & _) & _ & Hfirst).
  exists g, placed. split_and!; [done | done | | done].
  eapply Forall_impl; [exact Hall|]. intros p (Hd & Hcov & _).
  split; [done | by apply (covers_inside _ g)].
Qed.

(** X13: the letters on the grid returned by [generate_crossword] are
    exactly the letters of the placed words: a cell holds a letter if and
    only if it is that letter's cell in some placed word. *)
Theorem grid_letters_are_placed_letters
    (shuffle : list WordEntry -> list WordEntry)
    (entries : list WordEntry) (size max_words : Z) :
  exists g placed,
    generate_crossword shuffle entries size max_words = Ok (g, placed) /\
    (forall r c x,
       lookup_cell g r c = Some (Some x) <-> letter_of placed r c x).
Proof.
  destruct (generate_well_laid shuffle entries size max_words)
    as (g & placed & Hrun & (_ & Hall & Hletters & _) & _).
  exists g, placed. split; [done|]. intros r c x. split; [apply Hletters|].
  intros (p & k & Hp & Hk & -> & ->).
  rewrite Forall_forall in Hall. apply list_elem_of_In in Hp.
  destruct (Hall p Hp) as (_ & Hcov & _). by apply Hcov.
Qed.

(** X14: in the grid returned by [generate_crossword] no placed word abuts
    anything along its own line: the cell just before its start and the
    cell just after its end hold no letter (or are off the grid). *)
Theorem placed_words_never_abut (shuffle : list WordEntry -> list WordEntry)
    (entries : list WordEntry) (size max_words : Z) :
  exists g placed,
    generate_crossword shuffle entries size max_words = Ok (g, placed) /\
    Forall (fun p =>
              ends_clear g (row p) (col p) (direction p)
                (Z.of_nat (length (word (entry p))))) placed.
Proof.
  destruct (generate_well_laid shuffle entries size max_words)
    as (g & placed & Hrun & (_ & Hall & _ & _) & _).
  exists g, placed. split; [done|].
  eapply Forall_impl; [exact Hall|]. by intros p (_ & _ & Hap).
Qed.

(** X15: the entries of the placed words are a subsequence of the sorted
    selection: every placed word is a selected candidate, no candidate is
    placed twice, and the placement order follows the sorted order; in
    particular no more words are placed than were selected. *)
Theorem placed_entries_in_order (shuffle : list WordEntry -> list WordEntry)
    (entries : list WordEntry) (size max_words : Z) :
  exists g placed,
    generate_crossword shuffle entries size max_words = Ok (g, placed) /\
    sublist (map entry placed)
      (sort_by_length (select_words shuffle entries max_words)) /\
    (length placed <= length (select_words shuffle entries max_words))%nat.
Proof.
  destruct (generate_well_laid shuffle entries size max_words)
    as (g & placed & Hrun & _ & Hsub & _).
  exists g, placed. split_and!; [done | done |].
  apply sublist_length in Hsub. rewrite length_map in Hsub.
  by rewrite (Permutation_length (sort_by_length_perm _)) in Hsub.
Qed.

Lemma find_anchored (placed : list PlacedWord) (p : PlacedWord) :
  In p placed ->
  exists p0, List.find (anchored (direction p) (row p) (col p)) placed = Some p0.
Proof.
  intros Hp.
  destruct (List.find (anchored (direction p) (row p) (col p)) placed)
    as [p0|] eqn:Hfind; [eauto|].
  exfalso. pose proof (find_none _ _ Hfind p Hp) as Hno.
  unfold anchored in Hno. by rewrite !Z.eqb_refl in Hno.
Qed.

(** X16: the numbering pass on the output of [generate_crossword] never
    raises, and every placed word of at least two letters gets a clue: its
    anchor cell is numbered, and the map of its direction (across for a
    horizontal word, down for a vertical one) binds that number to the clue
    of the first placed word with this anchor and direction. *)
Theorem placed_words_are_numbered (shuffle : list WordEntry -> list WordEntry)
    (entries : list WordEntry) (size max_words : Z) :
  exists g placed st,
    generate_crossword shuffle entries size max_words = Ok (g, placed) /\
    number_grid placed g = (Ok st, g) /\
    (forall p,
       In p placed -> (2 <= length (word (entry p)))%nat ->
       exists n p0,
         numbers st !! n = Some (row p, col p) /\
         List.find (anchored (direction p) (row p) (col p)) placed = Some p0 /\
         (if direction p =? 0 then across st else down st) !! n
           = Some (clue (entry p0))).
Proof.
  destruct (generate_well_laid shuffle entries size max_words)
    as (g & placed & Hrun & (Hsq & Hall & _ & Hjoined) & _).
  destruct (number_grid_run _ g Hsq placed) as (st & Hnum & _ & Hnumbers & Hacross & Hdown).
  exists g, placed, st. split_and!; [done | done |].
  intros p Hp Hlen.
  rewrite Forall_forall in Hall.
  destruct (Hall p (proj2 (list_elem_of_In _ _) Hp)) as (Hd & Hcov & Hap).
  destruct (find_anchored placed p Hp) as [p0 Hfind].
  pose proof (occupied_covers g p Hcov) as Hocc. unfold word_len in Hocc.
  pose proof (Hocc 0 ltac:(lia)) as H0. pose proof (Hocc 1 ltac:(lia)) as H1.
  unfold apart in Hap. apply ends_clear_cells in Hap as [Hb _]; [|done].
  assert (Hon : on_grid (Z.max 0 size) (row p) (col p)).
  { destruct (covers_inside _ g p Hsq Hcov 0%nat) as [Hr Hc]; [lia|].
    rewrite cell_row_0 in Hr. rewrite cell_col_0 in Hc. done. }
  assert (Hstart : (if direction p =? 0 then across_start else down_start)
                     g (row p) (col p) = true).
  { destruct Hd as [Hd | Hd]; rewrite Hd in *; cells_norm; simpl (_ =? _).
    - unfold across_start.
      rewrite (occupied_eq g (row p) (col p) (row p + 0 * 0) (col p + 1 * 0)),
        (occupied_eq g (row p) (col p - 1) (row p + 0 * -1) (col p + 1 * -1)),
        (occupied_eq g (row p) (col p + 1) (row p + 0 * 1) (col p + 1 * 1)) by lia.
      by rewrite H0, H1, Hb.
    - unfold down_start.
      rewrite (occupied_eq g (row p) (col p) (row p + 1 * 0) (col p + 0 * 0)),
        (occupied_eq g (row p - 1) (col p) (row p + 1 * -1) (col p + 0 * -1)),
        (occupied_eq g (row p + 1) (col p) (row p + 1 * 1) (col p + 0 * 1)) by lia.
      by rewrite H0, H1, Hb. }
  assert (Hin : In (row p, col p) (numbered_cells (Z.max 0 size) g)).
  { apply in_numbered_cells. split; [done|]. unfold starts_entry. simpl.
    destruct (direction p =? 0); rewrite Hstart; [done | apply orb_true_r]. }
  apply nth_numbered_elem in Hin as [n Hn].
  exists n, p0. split_and!; [by rewrite Hnumbers | done |].
  destruct Hd as [Hd | Hd]; rewrite Hd in *; simpl (_ =? _) in *.
  - rewrite Hacross, Hn. simpl. rewrite Hstart. unfold first_clue. by rewrite Hfind.
  - rewrite Hdown, Hn. simpl. rewrite Hstart. unfold first_clue. by rewrite Hfind.
Qed.

Lemma start_is_anchor (g : Grid) (placed : list PlacedWord) (d r c : Z) :
  Forall (fun p => valid_direction (direction p) /\ covers g p /\ apart g p) placed ->
  joined g placed ->
  (if d =? 0 then across_start else down_start) g r c = true ->
  valid_direction d ->
  exists p0, List.find (anchored d r c) placed = Some p0.
Proof.
  intros Hall Hjoined Hstart Hd.
  assert (exists p, In p placed /\ direction p = d /\ row p = r /\ col p = c)
    as (p & Hp & <- & <- & <-); [|by apply find_anchored].
  rewrite Forall_forall in Hall.
  destruct Hd as [-> | ->]; simpl (_ =? _) in Hstart.
  - unfold across_start in Hstart.
    apply andb_true_iff in Hstart as [[HA Hleft]%andb_true_iff HB].
    apply negb_true_iff in Hleft.
    destruct (proj1 (Hjoined r c HA) HB) as (p & i & Hp & Hdir & Hi & Hlen & -> & ->).
    exists p. assert (i = 0) as ->; [|split_and!; (done || lia)].
    destruct (decide (i = 0)) as [-> | Hne]; [done|]. exfalso.
    destruct (Hall p (proj2 (list_elem_of_In _ _) Hp)) as (_ & Hcov & _).
    pose proof (occupied_covers g p Hcov (i - 1) ltac:(lia)) as Hocc.
    rewrite Hdir in Hocc. cells_norm. occ_clash Hocc Hleft.
  - unfold down_start in Hstart.
    apply andb_true_iff in Hstart as [[HA Hup]%andb_true_iff HB].
    apply negb_true_iff in Hup.
    destruct (proj2 (Hjoined r c HA) HB) as (p & i & Hp & Hdir & Hi & Hlen & -> & ->).
    exists p. assert (i = 0) as ->; [|split_and!; (done || lia)].
    destruct (decide (i = 0)) as [-> | Hne]; [done|]. exfalso.
    destruct (Hall p (proj2 (list_elem_of_In _ _) Hp)) as (_ & Hcov & _).
    pose proof (occupied_covers g p Hcov (i - 1) ltac:(lia)) as Hocc.
    rewrite Hdir in Hocc. cells_norm. occ_clash Hocc Hup.
Qed.

(** X17: on the output of [generate_crossword] every number has a clue.
    A numbered cell that starts an across answer is the anchor of a
    horizontal placed word and the across map binds its number to the clue
    of the first such word; likewise for a down answer; and every number is
    bound in at least one of the two maps. *)
Theorem numbers_have_clues (shuffle : list WordEntry -> list WordEntry)
    (entries : list WordEntry) (size max_words : Z) :
  exists g placed st,
    generate_crossword shuffle entries size max_words = Ok (g, placed) /\
    number_grid placed g = (Ok st, g) /\
    (forall n r c,
       numbers st !! n = Some (r, c) ->
       (across_start g r c = true ->
          exists p0, List.find (anchored 0 r c) placed = Some p0 /\
                     across st !! n = Some (clue (entry p0))) /\
       (down_start g r c = true ->
          exists p0, List.find (anchored 1 r c) placed = Some p0 /\
                     down st !! n = Some (clue (entry p0))) /\
       (is_Some (across st !! n) \/ is_Some (down st !! n))).
Proof.
  destruct (generate_well_laid shuffle entries size max_words)
    as (g & placed & Hrun & (Hsq & Hall & _ & Hjoined) & _).
  destruct (number_grid_run _ g Hsq placed)
    as (st & Hnum & _ & Hnumbers & Hacross & Hdown).
  exists g, placed, st. split_and!; [done | done |].
  intros n r c Hn. rewrite Hnumbers in Hn.
  assert (Ha : across_start g r c = true ->
               exists p0, List.find (anchored 0 r c) placed = Some p0 /\
                          across st !! n = Some (clue (entry p0))).
  { intros Hstart.
    destruct (start_is_anchor g placed 0 r c Hall Hjoined Hstart) as [p0 Hfind];
      [by left|].
    exists p0. split; [done|]. rewrite Hacross, Hn. simpl. rewrite Hstart.
    unfold first_clue. by rewrite Hfind. }
  assert (Hd : down_start g r c = true ->
               exists p0, List.find (anchored 1 r c) placed = Some p0 /\
                          down st !! n = Some (clue (entry p0))).
  { intros Hstart.
    destruct (start_is_anchor g placed 1 r c Hall Hjoined Hstart) as [p0 Hfind];
      [by right|].
    exists p0. split; [done|]. rewrite Hdown, Hn. simpl. rewrite Hstart.
    unfold first_clue. by rewrite Hfind. }
  split_and!; [done | done |].
  assert (Hin : In (r, c) (numbered_cells (Z.max 0 size) g)).
  { apply nth_numbered_elem. eauto. }
  apply in_numbered_cells in Hin as [_ Hs]. unfold starts_entry in Hs. simpl in Hs.
  apply orb_true_iff in Hs as [Hs | Hs].
  - left. destruct (Ha Hs) as (p0 & _ & ->). eauto.
  - right. destruct (Hd Hs) as (p0 & _ & ->). eauto.
Qed.

(** X18: on the grid returned by [generate_crossword] no two words run
    side by side: two letters next to each other in a row are consecutive
    letters of one horizontal placed word, and two letters one above the
    other are consecutive letters of one vertical placed word. *)
Theorem no_accidental_adjacency (shuffle : list WordEntry -> list WordEntry)
    (entries : list WordEntry) (size max_words : Z) :
  exists g placed,
    generate_crossword shuffle entries size max_words = Ok (g, placed) /\
    joined g placed.
Proof.
  destruct (generate_well_laid shuffle entries size max_words)
    as (g & placed & Hrun & (_ & _ & _ & Hjoined) & _).
  by exists g, placed.
Qed.
